(** * FundMe: a USDC funding ledger

    Shallow embedding of the Solidity contract [FundMe] (functions [fund]
    and [withdraw], the constructor, the storage layout) together with the
    execution rules of the EVM the contract relies on:

    - a call either returns or reverts; the state changes of a reverted call
      are discarded, so the post-state of a reverted transaction is its
      pre-state;
    - [uint256] arithmetic is checked (Solidity 0.8): an overflowing [+=]
      reverts with [Panic(0x11)];
    - the token behind [usdcToken] is another contract; the ledger only sees
      it through the three [IERC20] entry points it calls.

    Gas is not metered: the only budget is the one of the loop in
    [withdraw], which is always given in full ([reset_loop_run]). The token
    is assumed not to call back into the ledger while it serves a call. *)

From Stdlib Require Import Ascii.
From stdpp Require Import base numbers option list gmap strings.

Open Scope N_scope.

(** ** Values *)

Definition address := N.
Definition uint256 := N.

Definition MAX_UINT256 : uint256 := 2 ^ 256 - 1.

(** [uint256 public constant MINIMUM_USDC = 1 * 1e6;] *)
Definition MINIMUM_USDC : uint256 := 1 * 10 ^ 6.

(** Revert data of the token: the two [IERC20Errors] an ERC20 transfer
    raises, and anything else. *)
Inductive TokenError :=
| ERC20InsufficientAllowance (spender : address) (allowance needed : uint256)
| ERC20InsufficientBalance (sender : address) (balance needed : uint256)
| TokenRevert (data : list N).

(** The three custom errors of the contract, the arithmetic and array
    panics of the compiler, the exhaustion of the loop budget, and a revert
    that bubbles up from the token. *)
Inductive Error :=
| FundMe__NotOwner
| FundMe__NotEnoughFunds
| FundMe__TransferFailed
| Panic (code : N)
| OutOfGas
| ExternalRevert (e : TokenError).

(** ** The token interface *)

(** What a state-changing external call can do: return a boolean together
    with the callee's new state, or revert. *)
Inductive CallResult (T : Type) :=
| CallReturn (success : bool) (t : T)
| CallRevert (e : TokenError).
Arguments CallReturn {T} success t.
Arguments CallRevert {T} e.

(** [IERC20], restricted to the entry points [FundMe] calls. [T] is the
    storage of the token contract; the first address of [transfer] and
    [transferFrom] is the [msg.sender] the token sees. *)
Class IERC20 (T : Type) := {
  balanceOf : T → address → uint256;
  transfer : T → address → address → uint256 → CallResult T;
  transferFrom : T → address → address → address → uint256 → CallResult T;
}.

(** ** Contract storage *)

(** The contract instance: its own address, the two immutables, and the two
    storage variables. A Solidity mapping is total with default [0]; it is
    kept as a finite map read through [amountFunded]. *)
Record FundMe := mkFundMe {
  this : address;
  i_owner : address;
  usdcToken : address;
  addressToAmountFunded : gmap address uint256;
  s_funders : list address;
}.

Definition amountFunded (c : FundMe) (a : address) : uint256 :=
  default 0 (addressToAmountFunded c !! a).

Definition set_amountFunded (a : address) (v : uint256) (c : FundMe) : FundMe :=
  mkFundMe (this c) (i_owner c) (usdcToken c)
           (<[a := v]> (addressToAmountFunded c)) (s_funders c).

(** What the loop of [withdraw] does to the mapping, funder by funder. *)
Definition sweep (funders : list address) (c : FundMe) : FundMe :=
  foldl (λ c' funder, set_amountFunded funder 0 c') c funders.

(** The accounting total of the ledger: the entries of the roster, summed. *)
Definition total_funded (c : FundMe) : uint256 :=
  foldr (λ funder acc, amountFunded c funder + acc) 0 (s_funders c).

(** How many times [d] occurs in a roster. *)
Definition occurrences (d : address) (funders : list address) : nat :=
  length (filter (λ x, x = d) funders).

Definition set_funders (l : list address) (c : FundMe) : FundMe :=
  mkFundMe (this c) (i_owner c) (usdcToken c) (addressToAmountFunded c) l.

(** [constructor(address _usdcAddress)], run by [msg_sender]; the instance
    is created at address [self]. *)
Definition constructor (self msg_sender _usdcAddress : address) : FundMe :=
  mkFundMe self msg_sender _usdcAddress ∅ [].

(** The external calls a function makes, in order. *)
Inductive ExtCall :=
| Call_transferFrom (from to : address) (amount : uint256)
| Call_balanceOf (account : address)
| Call_transfer (to : address) (amount : uint256).

Section Ledger.
Context {T : Type} {token : IERC20 T}.

(** The part of the chain state a call can touch: the ledger and the
    token contract at [usdcToken]. *)
Record World := mkWorld {
  fundMe : FundMe;
  usdc : T;
}.

(** ** The execution monad *)

(** A call body ends by returning a value in a new state or by reverting.
    [Reverted] keeps the state the body had reached when the revert fired;
    [transact] below discards it. *)
Inductive Outcome (A : Type) :=
| Returned (a : A) (w : World)
| Reverted (e : Error) (w : World).
Arguments Returned {A} a w.
Arguments Reverted {A} e w.

Definition M (A : Type) : Type := World → list ExtCall * Outcome A.

#[local] Instance M_ret : MRet M := λ A a w, ([], Returned a w).

#[local] Instance M_bind : MBind M := λ A B k m w,
  match m w with
  | (cs, Returned a w') => let '(cs', o) := k a w' in (cs ++ cs', o)
  | (cs, Reverted e w') => (cs, Reverted e w')
  end.

Definition revert {A} (e : Error) : M A := λ w, ([], Reverted e w).

Definition read {A} (f : FundMe → A) : M A := λ w, ([], Returned (f (fundMe w)) w).

Definition write (f : FundMe → FundMe) : M unit :=
  λ w, ([], Returned tt (mkWorld (f (fundMe w)) (usdc w))).

(** [usdcToken.transferFrom(from, to, amount)] *)
Definition call_transferFrom (from to : address) (amount : uint256) : M bool := λ w,
  ([Call_transferFrom from to amount],
   match transferFrom (usdc w) (this (fundMe w)) from to amount with
   | CallReturn b t => Returned b (mkWorld (fundMe w) t)
   | CallRevert d => Reverted (ExternalRevert d) w
   end).

(** [usdcToken.balanceOf(account)], a view call. *)
Definition call_balanceOf (account : address) : M uint256 := λ w,
  ([Call_balanceOf account], Returned (balanceOf (usdc w) account) w).

(** [usdcToken.transfer(to, amount)] *)
Definition call_transfer (to : address) (amount : uint256) : M bool := λ w,
  ([Call_transfer to amount],
   match transfer (usdc w) (this (fundMe w)) to amount with
   | CallReturn b t => Returned b (mkWorld (fundMe w) t)
   | CallRevert d => Reverted (ExternalRevert d) w
   end).

(** ** [fund] *)

(** [addressToAmountFunded[a] += amount], with the overflow check. *)
Definition add_amountFunded (a : address) (amount : uint256) : M unit :=
  funded ← read (λ c, amountFunded c a);
  if decide (funded + amount ≤ MAX_UINT256)
  then write (set_amountFunded a (funded + amount))
  else revert (Panic 0x11).

Definition fund (msg_sender : address) (_amount : uint256) : M unit :=
  if decide (_amount < MINIMUM_USDC) then revert FundMe__NotEnoughFunds else
  self ← read this;
  success ← call_transferFrom msg_sender self _amount;
  if negb success then revert FundMe__TransferFailed else
  funded ← read (λ c, amountFunded c msg_sender);
  (if decide (funded = 0)
   then write (λ c, set_funders (s_funders c ++ [msg_sender]) c)
   else mret tt);;
  add_amountFunded msg_sender _amount.

(** ** [withdraw] *)

(** [s_funders[i]], with the bounds check. *)
Definition funder_at (i : nat) : M address :=
  funders ← read s_funders;
  match funders !! i with
  | Some funder => mret funder
  | None => revert (Panic 0x32)
  end.

(** The [for] loop of [withdraw], entered at [funderIndex]. The loop
    condition is re-evaluated before every iteration, as in the source;
    [fuel] bounds the number of iterations. *)
Fixpoint reset_loop (fuel funderIndex : nat) {struct fuel} : M unit :=
  len ← read (λ c, length (s_funders c));
  if decide (funderIndex < len)%nat then
    match fuel with
    | O => revert OutOfGas
    | S fuel' =>
        funder ← funder_at funderIndex;
        write (set_amountFunded funder 0);;
        reset_loop fuel' (S funderIndex)
    end
  else mret tt.

Definition withdraw (msg_sender : address) : M unit :=
  owner ← read i_owner;
  if decide (msg_sender ≠ owner) then revert FundMe__NotOwner else
  len ← read (λ c, length (s_funders c));
  reset_loop len 0;;
  write (set_funders []);;
  self ← read this;
  balance ← call_balanceOf self;
  success ← call_transfer owner balance;
  if negb success then revert FundMe__TransferFailed else mret tt.

(** ** Transactions *)

Inductive Receipt :=
| Success
| Failure (e : Error).

Record TxResult := mkTx {
  calls : list ExtCall;
  status : Receipt;
  post : World;
}.

(** A call made as a transaction. When the body reverts, every state
    change it made, in the ledger and in the token, is rolled back. *)
Definition transact (m : M unit) (w : World) : TxResult :=
  match m w with
  | (cs, Returned _ w') => mkTx cs Success w'
  | (cs, Reverted e _) => mkTx cs (Failure e) w
  end.

Inductive Op :=
| Fund (msg_sender : address) (_amount : uint256)
| Withdraw (msg_sender : address).

Definition exec (op : Op) : M unit :=
  match op with
  | Fund msg_sender _amount => fund msg_sender _amount
  | Withdraw msg_sender => withdraw msg_sender
  end.

(** What happens to the world between two observations: a transaction on
    the ledger, or activity on the token that does not go through the
    ledger (approvals, mints, transfers between third parties, direct
    transfers to the ledger). *)
Inductive Event :=
| Tx (op : Op)
| TokenActivity (t : T).

Definition step (ev : Event) (w : World) : World :=
  match ev with
  | Tx op => post (transact (exec op) w)
  | TokenActivity t => mkWorld (fundMe w) t
  end.

Fixpoint run (evs : list Event) (w : World) : World :=
  match evs with
  | [] => w
  | ev :: evs' => run evs' (step ev w)
  end.

Definition deploy (self msg_sender _usdcAddress : address) (t : T) : World :=
  mkWorld (constructor self msg_sender _usdcAddress) t.

Inductive reachable : World → Prop :=
| reach_deploy self msg_sender _usdcAddress t :
    reachable (deploy self msg_sender _usdcAddress t)
| reach_step ev w :
    reachable w → reachable (step ev w).

Definition succeeded (r : TxResult) : bool :=
  match status r with
  | Success => true
  | Failure _ => false
  end.

(** [ev], run in [w], is a withdrawal that goes through. *)
Definition is_sweep (ev : Event) (w : World) : bool :=
  match ev with
  | Tx (Withdraw msg_sender) => succeeded (transact (withdraw msg_sender) w)
  | _ => false
  end.

(** [ev], run in [w], is a deposit of [d] that goes through. *)
Definition is_deposit_of (d : address) (ev : Event) (w : World) : bool :=
  match ev with
  | Tx (Fund msg_sender _amount) =>
      bool_decide (msg_sender = d) && succeeded (transact (fund msg_sender _amount) w)
  | _ => false
  end.

(** No event of the run satisfies [p] in the world it is run in. *)
Fixpoint never (p : Event → World → bool) (evs : list Event) (w : World) : bool :=
  match evs with
  | [] => true
  | ev :: evs' => negb (p ev w) && never p evs' (step ev w)
  end.

(** The ERC20 contract of a successful [transfer]: the amount leaves the
    sender's balance and reaches the recipient's. *)
Definition transfer_moves_funds : Prop :=
  ∀ t sender to amount t',
    transfer t sender to amount = CallReturn true t' →
    sender ≠ to →
    amount ≤ balanceOf t sender ∧
    balanceOf t' sender = balanceOf t sender - amount ∧
    balanceOf t' to = balanceOf t to + amount.

End Ledger.

Arguments World T : clear implicits.
Arguments Outcome T A : clear implicits.
Arguments Returned {T A} a w.
Arguments Reverted {T A} e w.
Arguments Event T : clear implicits.
Arguments Tx {T} op.


(** ** A token double *)

(** Modelled from the spec: the token service of section 6, as the tests
    use it (the repository's [MockUSDC] and the ERC20 contract it extends
    are not among the sources). Balances and allowances are kept per
    holder; a pull needs an allowance granted by the payer to the caller
    and a sufficient balance, and aborts otherwise with the errors the
    tests expect. The [paused] flag makes every transfer report failure by
    returning [false], the other failure mode the interface allows. *)
Record MockUSDC := mkMock {
  balances : gmap address uint256;
  allowances : gmap (address * address) uint256;
  paused : bool;
}.

Definition mock_balanceOf (t : MockUSDC) (a : address) : uint256 :=
  default 0 (balances t !! a).

Definition mock_allowance (t : MockUSDC) (owner spender : address) : uint256 :=
  default 0 (allowances t !! (owner, spender)).

Definition mock_move (from to : address) (amount : uint256) (t : MockUSDC) : MockUSDC :=
  let b := <[from := mock_balanceOf t from - amount]> (balances t) in
  mkMock (<[to := default 0 (b !! to) + amount]> b) (allowances t) (paused t).

Definition mock_transfer (t : MockUSDC) (sender to : address) (amount : uint256)
  : CallResult MockUSDC :=
  if paused t then CallReturn false t else
  if decide (mock_balanceOf t sender < amount)
  then CallRevert (ERC20InsufficientBalance sender (mock_balanceOf t sender) amount)
  else CallReturn true (mock_move sender to amount t).

Definition mock_transferFrom (t : MockUSDC) (spender from to : address) (amount : uint256)
  : CallResult MockUSDC :=
  if paused t then CallReturn false t else
  if decide (mock_allowance t from spender < amount)
  then CallRevert (ERC20InsufficientAllowance spender (mock_allowance t from spender) amount)
  else if decide (mock_balanceOf t from < amount)
  then CallRevert (ERC20InsufficientBalance from (mock_balanceOf t from) amount)
  else
    let t' := mock_move from to amount t in
    CallReturn true
      (mkMock (balances t')
              (<[(from, spender) := mock_allowance t from spender - amount]> (allowances t'))
              (paused t')).

#[export] Instance MockUSDC_IERC20 : IERC20 MockUSDC := {
  balanceOf := mock_balanceOf;
  transfer := mock_transfer;
  transferFrom := mock_transferFrom;
}.

(** [mint], [approve] and pausing, to set scenarios up. *)
Definition mock_mint (a : address) (amount : uint256) (t : MockUSDC) : MockUSDC :=
  mkMock (<[a := mock_balanceOf t a + amount]> (balances t)) (allowances t) (paused t).

Definition mock_approve (owner spender : address) (amount : uint256) (t : MockUSDC) : MockUSDC :=
  mkMock (balances t) (<[(owner, spender) := amount]> (allowances t)) (paused t).

Definition mock_pause (t : MockUSDC) : MockUSDC :=
  mkMock (balances t) (allowances t) true.

Definition mock_empty : MockUSDC := mkMock ∅ ∅ false.

(** ** The scenario of the test suite *)

(** The worlds [test/FundMe.t.sol] goes through: [setUp] deploys the mock
    and the ledger and mints [STARTING_BALANCE] to [USER]; the user then
    approves and funds [SEND_VALUE]. *)
Definition OWNER : address := 1.
Definition USER : address := 7.
Definition USER2 : address := 8.
Definition FUNDME : address := 100.
Definition USDC : address := 200.
Definition STARTING_BALANCE : uint256 := 1000 * 10 ^ 6.
Definition SEND_VALUE : uint256 := 100 * 10 ^ 6.

Definition setUp : World MockUSDC :=
  deploy FUNDME OWNER USDC (mock_mint USER STARTING_BALANCE mock_empty).

Definition approved : World MockUSDC :=
  step (TokenActivity (mock_approve USER FUNDME SEND_VALUE (usdc setUp))) setUp.

Definition funded : World MockUSDC :=
  step (Tx (Fund USER SEND_VALUE)) approved.

(** The owner sweeps the funded ledger. *)
Definition swept : World MockUSDC :=
  step (Tx (Withdraw OWNER)) funded.

(** The token is paused once the user has funded. *)
Definition frozen : World MockUSDC :=
  step (TokenActivity (mock_pause (usdc funded))) funded.

(** What happens between the two deposits of [USER]: a withdrawal attempt
    by the user, and a second approval. *)
Definition interlude : list (Event MockUSDC) :=
  [Tx (Withdraw USER);
   TokenActivity (mock_approve USER FUNDME (250 * 10 ^ 6) (usdc funded))].

(** What happens after the deposit of [USER] without any sweep: a
    withdrawal attempt by the user, the token pausing, and a withdrawal
    attempt by the owner. *)
Definition aftermath : list (Event MockUSDC) :=
  [Tx (Withdraw USER);
   TokenActivity (mock_pause (usdc funded));
   Tx (Withdraw OWNER)].

(** A ledger with two funders, of 100 and 250 units, holding 350. *)
Definition two_funders : World MockUSDC :=
  mkWorld (mkFundMe FUNDME OWNER USDC (<[USER2 := 250]> (<[USER := 100]> ∅)) [USER; USER2])
          (mock_mint FUNDME 350 mock_empty).

(** ** Custody *)

Section Custody.
Context {T : Type} {token : IERC20 T}.

(** The ERC20 contract of a successful [transferFrom]: the amount leaves
    the payer's balance and reaches the recipient's. *)
Definition transferFrom_moves_funds : Prop :=
  ∀ t spender from to amount t',
    transferFrom t spender from to amount = CallReturn true t' →
    from ≠ to →
    amount ≤ balanceOf t from ∧
    balanceOf t' from = balanceOf t from - amount ∧
    balanceOf t' to = balanceOf t to + amount.

(** Along the run, the ledger never funds itself, and what happens on the
    token outside the ledger's own calls never lowers the balance held for
    the ledger (the ledger has no function that approves a spender, so no
    third party can pull from it). *)
Fixpoint custody_respected (evs : list (Event T)) (w : World T) : Prop :=
  match evs with
  | [] => True
  | ev :: evs' =>
      match ev with
      | Tx (Fund msg_sender _) => msg_sender ≠ this (fundMe w)
      | Tx (Withdraw _) => True
      | TokenActivity t =>
          balanceOf (usdc w) (this (fundMe w)) ≤ balanceOf t (this (fundMe w))
      end ∧ custody_respected evs' (step ev w)
  end.

End Custody.

(** A ledger whose entry for [USER] is one unit short of the largest
    [uint256], with the user able to fund again. *)
Definition saturated : World MockUSDC :=
  mkWorld (mkFundMe FUNDME OWNER USDC (<[USER := MAX_UINT256 - 1]> ∅) [USER])
          (mock_approve USER FUNDME SEND_VALUE (mock_mint USER STARTING_BALANCE mock_empty)).

(** A run in which a second user funds as well, and the user funds twice. *)
Definition busy_day : list (Event MockUSDC) :=
  [TokenActivity (mock_approve USER2 FUNDME (250 * 10 ^ 6)
     (mock_mint USER2 STARTING_BALANCE (usdc funded)));
   Tx (Fund USER2 (250 * 10 ^ 6));
   Tx (Fund USER SEND_VALUE);
   Tx (Withdraw USER)].

(** ** The deployment script *)

(** The chain id of the local development chain, and the mainnet USDC
    address the script falls back to. *)
Definition LOCAL_CHAINID : N := 31337.
Definition MAINNET_USDC : address := 0xA0b86991c6218b36c1d19D4a2e9Eb0cE3606eB48.

(** [DeployFundMe.run], broadcast by [broadcaster]. [mockUsdc] is the
    address the mock gets when the script creates it, [self] the address
    the ledger gets. *)
Definition DeployFundMe_run (chainid : N) (broadcaster mockUsdc self : address) : FundMe :=
  let usdcAddress :=
    if decide (chainid = LOCAL_CHAINID) then mockUsdc else MAINNET_USDC in
  constructor self broadcaster usdcAddress.

(** ** The tip selector *)

(** The component [TipSelector] of the front end: two pieces of state, a
    click handler, and an input handler that filters what is typed with a
    regular expression and a bound. *)

(** Regular expressions, as far as the pattern of the input filter needs
    them; [RNone] and [RAlt] only arise while matching. *)
Inductive regex :=
| RNone
| REps
| RChar (c : ascii)
| RDigit
| RSeq (r1 r2 : regex)
| RAlt (r1 r2 : regex)
| RStar (r : regex)
| ROpt (r : regex)
| RUpto (n : nat) (r : regex).

(** [\d]: one of the characters 0 to 9. *)
Definition is_digit (a : ascii) : bool :=
  (48 <=? Ascii.N_of_ascii a) && (Ascii.N_of_ascii a <=? 57).

Fixpoint nullable (r : regex) : bool :=
  match r with
  | RNone | RChar _ | RDigit => false
  | REps | RStar _ | ROpt _ | RUpto _ _ => true
  | RSeq r1 r2 => nullable r1 && nullable r2
  | RAlt r1 r2 => nullable r1 || nullable r2
  end.

(** What is left of [r] to match once [a] has been read. *)
Fixpoint deriv (a : ascii) (r : regex) : regex :=
  match r with
  | RNone | REps => RNone
  | RChar c => if decide (a = c) then REps else RNone
  | RDigit => if is_digit a then REps else RNone
  | RSeq r1 r2 =>
      if nullable r1 then RAlt (RSeq (deriv a r1) r2) (deriv a r2)
      else RSeq (deriv a r1) r2
  | RAlt r1 r2 => RAlt (deriv a r1) (deriv a r2)
  | RStar r' => RSeq (deriv a r') (RStar r')
  | ROpt r' => deriv a r'
  | RUpto O _ => RNone
  | RUpto (S n) r' => RSeq (deriv a r') (RUpto n r')
  end.

(** The whole of [cs] matches [r]: what [/^r$/.test] computes. *)
Fixpoint matches (r : regex) (cs : list ascii) : bool :=
  match cs with
  | [] => nullable r
  | a :: cs' => matches (deriv a r) cs'
  end.

(** The strings a regular expression denotes. *)
Inductive denotes : regex → list ascii → Prop :=
| denotes_eps : denotes REps []
| denotes_char c : denotes (RChar c) [c]
| denotes_digit a : is_digit a = true → denotes RDigit [a]
| denotes_seq r1 r2 s1 s2 :
    denotes r1 s1 → denotes r2 s2 → denotes (RSeq r1 r2) (s1 ++ s2)
| denotes_alt_l r1 r2 s : denotes r1 s → denotes (RAlt r1 r2) s
| denotes_alt_r r1 r2 s : denotes r2 s → denotes (RAlt r1 r2) s
| denotes_star_nil r : denotes (RStar r) []
| denotes_star_app r s1 s2 :
    denotes r s1 → denotes (RStar r) s2 → denotes (RStar r) (s1 ++ s2)
| denotes_opt_nil r : denotes (ROpt r) []
| denotes_opt_one r s : denotes r s → denotes (ROpt r) s
| denotes_upto_nil n r : denotes (RUpto n r) []
| denotes_upto_app n r s1 s2 :
    denotes r s1 → denotes (RUpto n r) s2 → denotes (RUpto (S n) r) (s1 ++ s2).

(** [/^\d*\.?\d{0,2}$/] *)
Definition pattern : regex :=
  RSeq (RStar RDigit) (RSeq (ROpt (RChar "."%char)) (RUpto 2 RDigit)).

Definition test (r : regex) (val : string) : bool :=
  matches r (String.list_ascii_of_string val).

(** What the comment above the pattern asks for: digits, then possibly a
    decimal point followed by at most two digits. *)
Definition decimal_shaped (cs : list ascii) : Prop :=
  ∃ whole point frac,
    cs = whole ++ point ++ frac ∧
    forallb is_digit whole = true ∧
    (point = [] ∨ point = ["."%char]) ∧
    forallb is_digit frac = true ∧
    (length frac ≤ 2)%nat.

Record TipSelector := mkTipSelector {
  selected : string;
  customAmount : string;
}.

(** [useState("5")] and [useState("")] *)
Definition TipSelector_initial : TipSelector := mkTipSelector "5" "".

Definition options : list string := ["5"; "10"; "15"; "custom"]%string.

(** The argument the effect passes to [onAmountChange]. *)
Definition reported_amount (s : TipSelector) : string :=
  if decide (selected s = "custom"%string) then customAmount s else selected s.

Definition handleSelect (disabled : bool) (opt : string) (s : TipSelector) : TipSelector :=
  if disabled then s else mkTipSelector opt (customAmount s).

Section TipSelector_input.
(** [parseFloat(val) <= 1000] is a comparison of floating-point numbers;
    it is kept as a parameter. *)
Variable parseFloat_le_1000 : string → bool.

Definition handleCustomChange (val : string) (s : TipSelector) : TipSelector :=
  if decide (val = ""%string) then mkTipSelector (selected s) ""
  else if test pattern val then
    if parseFloat_le_1000 val then mkTipSelector (selected s) val else s
  else s.

(** The custom amount has passed the filter, or is empty. *)
Definition filtered (val : string) : Prop :=
  val = ""%string ∨
  (decimal_shaped (String.list_ascii_of_string val) ∧ parseFloat_le_1000 val = true).

(** What the user can do to the rendered component: click the button of
    the [i]-th option, or change the text of the input. The input is only
    rendered while the selection is [custom], and it is disabled with the
    component. [disabled] is the prop at the time of the event. *)
Inductive UiEvent :=
| Click (disabled : bool) (i : nat)
| Change (disabled : bool) (val : string).

Definition ui_step (ev : UiEvent) (s : TipSelector) : TipSelector :=
  match ev with
  | Click disabled i =>
      match options !! i with
      | Some opt => handleSelect disabled opt s
      | None => s
      end
  | Change disabled val =>
      if decide (selected s = "custom"%string) then
        if disabled then s else handleCustomChange val s
      else s
  end.

Fixpoint ui_run (evs : list UiEvent) (s : TipSelector) : TipSelector :=
  match evs with
  | [] => s
  | ev :: evs' => ui_run evs' (ui_step ev s)
  end.

End TipSelector_input.

(** The bookkeeping invariant: the roster has no duplicates and lists
    exactly the identities with a nonzero entry. *)
Definition consistent (c : FundMe) : Prop :=
  NoDup (s_funders c) ∧ ∀ d, d ∈ s_funders c ↔ amountFunded c d ≠ 0.

(** * Properties *)

Section Properties.
Context {T : Type} {token : IERC20 T}.
Implicit Types (w : World T) (c : FundMe) (d : address).

(** ** Storage *)

Lemma amountFunded_set_eq a v c : amountFunded (set_amountFunded a v c) a = v.
Proof. unfold amountFunded; simpl. by rewrite lookup_insert_eq. Qed.

Lemma amountFunded_set_ne a b v c :
  a ≠ b → amountFunded (set_amountFunded a v c) b = amountFunded c b.
Proof. intros Hne. unfold amountFunded; simpl. by rewrite lookup_insert_ne. Qed.

Lemma sweep_snoc l f c : sweep (l ++ [f]) c = set_amountFunded f 0 (sweep l c).
Proof. unfold sweep. by rewrite foldl_app. Qed.

Lemma sweep_funders l c : s_funders (sweep l c) = s_funders c.
Proof. induction l as [|f l IH] using rev_ind; [done|]. by rewrite sweep_snoc. Qed.

Lemma sweep_immutables l c :
  this (sweep l c) = this c ∧ i_owner (sweep l c) = i_owner c ∧
  usdcToken (sweep l c) = usdcToken c.
Proof. induction l as [|f l IH] using rev_ind; [done|]. by rewrite sweep_snoc. Qed.

Lemma amountFunded_sweep_in l c d : d ∈ l → amountFunded (sweep l c) d = 0.
Proof.
  induction l as [|f l IH] using rev_ind; intros Hin.
  - by apply not_elem_of_nil in Hin.
  - rewrite sweep_snoc. destruct (decide (f = d)) as [->|Hne].
    + apply amountFunded_set_eq.
    + rewrite amountFunded_set_ne by done. apply IH.
      apply elem_of_app in Hin as [?|Hf]; [done|].
      apply list_elem_of_singleton in Hf. congruence.
Qed.

Lemma amountFunded_sweep_notin l c d : d ∉ l → amountFunded (sweep l c) d = amountFunded c d.
Proof.
  induction l as [|f l IH] using rev_ind; intros Hl; [done|].
  rewrite sweep_snoc. apply not_elem_of_app in Hl as [Hl Hf].
  rewrite amountFunded_set_ne; [by apply IH|].
  intros ->. apply Hf. by apply list_elem_of_singleton.
Qed.

(** ** The bodies, as functions of the world *)

Ltac unfold_body :=
  unfold fund, withdraw, add_amountFunded, funder_at, call_transferFrom,
    call_balanceOf, call_transfer, read, write, revert,
    mbind, mret, M_bind, M_ret.

(** The loop budget [withdraw] passes is enough: the loop leaves through
    its condition, having reset every funder from [funderIndex] on. *)
Lemma reset_loop_run fuel funderIndex w :
  (length (s_funders (fundMe w)) - funderIndex ≤ fuel)%nat →
  reset_loop fuel funderIndex w =
    ([], Returned tt (mkWorld (sweep (drop funderIndex (s_funders (fundMe w))) (fundMe w))
                              (usdc w))).
Proof.
  revert funderIndex w. induction fuel as [|fuel IH]; intros i [c t] Hfuel; simpl in *.
  - unfold_body; simpl. case_decide; [lia|].
    by rewrite drop_ge by lia.
  - unfold_body; simpl. case_decide as Hlt.
    + destruct (lookup_lt_is_Some_2 _ _ Hlt) as [f Hf].
      simpl. rewrite Hf; simpl.
      rewrite (IH (S i) (mkWorld (set_amountFunded f 0 c) t)) by (simpl; lia).
      simpl. by rewrite (drop_S _ _ _ Hf).
    + by rewrite drop_ge by lia.
Qed.

Lemma fund_eq msg_sender _amount w :
  fund msg_sender _amount w =
    let c := fundMe w in
    let pull := [Call_transferFrom msg_sender (this c) _amount] in
    if decide (_amount < MINIMUM_USDC) then ([], Reverted FundMe__NotEnoughFunds w) else
    match transferFrom (usdc w) (this c) msg_sender (this c) _amount with
    | CallRevert e => (pull, Reverted (ExternalRevert e) w)
    | CallReturn false t => (pull, Reverted FundMe__TransferFailed (mkWorld c t))
    | CallReturn true t =>
        let c' := if decide (amountFunded c msg_sender = 0)
                  then set_funders (s_funders c ++ [msg_sender]) c else c in
        if decide (amountFunded c msg_sender + _amount ≤ MAX_UINT256)
        then (pull, Returned tt
                (mkWorld (set_amountFunded msg_sender (amountFunded c msg_sender + _amount) c') t))
        else (pull, Reverted (Panic 0x11) (mkWorld c' t))
    end.
Proof.
  destruct w as [c t]. unfold_body; simpl.
  case_decide; [done|]. simpl.
  destruct (transferFrom t (this c) msg_sender (this c) _amount) as [[|] t'|e]; simpl; [|done..].
  repeat case_decide; simpl; try done; repeat case_decide; done.
Qed.

Lemma withdraw_eq msg_sender w :
  withdraw msg_sender w =
    let c := fundMe w in
    if decide (msg_sender ≠ i_owner c) then ([], Reverted FundMe__NotOwner w) else
    let c' := set_funders [] (sweep (s_funders c) c) in
    let balance := balanceOf (usdc w) (this c) in
    let push := [Call_balanceOf (this c); Call_transfer (i_owner c) balance] in
    match transfer (usdc w) (this c) (i_owner c) balance with
    | CallRevert e => (push, Reverted (ExternalRevert e) (mkWorld c' (usdc w)))
    | CallReturn false t => (push, Reverted FundMe__TransferFailed (mkWorld c' t))
    | CallReturn true t => (push, Returned tt (mkWorld c' t))
    end.
Proof.
  destruct w as [c t]. unfold withdraw, mbind, M_bind at 1 2 3. unfold read at 1 2; simpl.
  case_decide; [done|].
  rewrite reset_loop_run by (simpl; lia). simpl.
  destruct (sweep_immutables (s_funders c) c) as (Hthis & _).
  unfold_body; simpl. rewrite drop_0, Hthis.
  by destruct (transfer t (this c) (i_owner c) (balanceOf t (this c))) as [[|] t'|e].
Qed.

(** ** Transactions *)

Lemma transact_failed m w : succeeded (transact m w) = false → post (transact m w) = w.
Proof. unfold succeeded, transact. by destruct (m w) as [cs [[] w'|e w']]. Qed.

Lemma fund_succeeded msg_sender _amount w :
  succeeded (transact (fund msg_sender _amount) w) = true →
  let c := fundMe w in
  MINIMUM_USDC ≤ _amount ∧
  amountFunded c msg_sender + _amount ≤ MAX_UINT256 ∧
  ∃ t, transferFrom (usdc w) (this c) msg_sender (this c) _amount = CallReturn true t ∧
       post (transact (fund msg_sender _amount) w) =
         mkWorld (set_amountFunded msg_sender (amountFunded c msg_sender + _amount)
                    (if decide (amountFunded c msg_sender = 0)
                     then set_funders (s_funders c ++ [msg_sender]) c else c)) t.
Proof.
  unfold succeeded, transact. rewrite fund_eq. simpl.
  case_decide as Hmin; [done|].
  destruct (transferFrom _ _ _ _ _) as [[|] t|e]; [|done..].
  case_decide as Hmax; [|done]. simpl. intros _.
  split; [lia|]. split; [done|]. by exists t.
Qed.

Lemma withdraw_succeeded msg_sender w :
  succeeded (transact (withdraw msg_sender) w) = true →
  let c := fundMe w in
  msg_sender = i_owner c ∧
  ∃ t, transfer (usdc w) (this c) (i_owner c) (balanceOf (usdc w) (this c)) = CallReturn true t ∧
       post (transact (withdraw msg_sender) w) =
         mkWorld (set_funders [] (sweep (s_funders c) c)) t.
Proof.
  unfold succeeded, transact. rewrite withdraw_eq. simpl.
  case_decide as Howner; [done|].
  destruct (transfer _ _ _ _) as [[|] t|e]; [|done..].
  simpl. intros _. split; [done|]. by exists t.
Qed.

(** ** The bookkeeping invariant *)

Lemma constructor_consistent self msg_sender _usdcAddress :
  consistent (constructor self msg_sender _usdcAddress).
Proof.
  split; [apply NoDup_nil_2|]. intros d. simpl. split.
  - intros Hin. by apply not_elem_of_nil in Hin.
  - unfold amountFunded; simpl. by rewrite lookup_empty.
Qed.

Lemma fund_consistent msg_sender _amount w :
  consistent (fundMe w) →
  consistent (fundMe (post (transact (fund msg_sender _amount) w))).
Proof.
  intros [Hnd Hiff].
  destruct (succeeded (transact (fund msg_sender _amount) w)) eqn:Hs;
    [|by rewrite transact_failed].
  apply fund_succeeded in Hs as (Hmin & _ & t & _ & ->). simpl.
  assert (0 < _amount) by (unfold MINIMUM_USDC in Hmin; lia).
  set (c := fundMe w) in *.
  assert (Hroster : ∀ d, d ∈ s_funders (if decide (amountFunded c msg_sender = 0)
                              then set_funders (s_funders c ++ [msg_sender]) c else c)
                         ↔ d = msg_sender ∨ d ∈ s_funders c).
  { intros d. case_decide as Hz; simpl.
    - rewrite elem_of_app, list_elem_of_singleton. tauto.
    - split; [tauto|]. intros [->|?]; [|done]. by apply Hiff. }
  split.
  - case_decide as Hz; simpl; [|done].
    apply NoDup_app. split; [done|]. split; [|apply NoDup_singleton].
    intros x Hx ->%list_elem_of_singleton. by apply Hiff in Hx.
  - intros d. rewrite Hroster. destruct (decide (d = msg_sender)) as [->|Hne].
    + rewrite amountFunded_set_eq. split; [lia|tauto].
    + rewrite amountFunded_set_ne by done.
      replace (amountFunded _ d) with (amountFunded c d) by (by case_decide).
      rewrite <- Hiff. tauto.
Qed.

Lemma withdraw_consistent msg_sender w :
  consistent (fundMe w) →
  consistent (fundMe (post (transact (withdraw msg_sender) w))).
Proof.
  intros [Hnd Hiff].
  destruct (succeeded (transact (withdraw msg_sender) w)) eqn:Hs;
    [|by rewrite transact_failed].
  apply withdraw_succeeded in Hs as (_ & t & _ & ->). simpl.
  split; [apply NoDup_nil_2|]. intros d. simpl. split.
  - intros Hin. by apply not_elem_of_nil in Hin.
  - intros Hnz. exfalso. apply Hnz. clear Hnz.
    change (amountFunded (sweep (s_funders (fundMe w)) (fundMe w)) d = 0).
    destruct (decide (d ∈ s_funders (fundMe w))) as [Hin|Hout].
    + by apply amountFunded_sweep_in.
    + rewrite amountFunded_sweep_notin by done.
      destruct (decide (amountFunded (fundMe w) d = 0)); [done|].
      exfalso. by apply Hout, Hiff.
Qed.

Lemma step_consistent ev w : consistent (fundMe w) → consistent (fundMe (step ev w)).
Proof.
  destruct ev as [[msg_sender _amount|msg_sender]|t]; simpl.
  - apply fund_consistent.
  - apply withdraw_consistent.
  - done.
Qed.

Lemma reachable_consistent w : reachable w → consistent (fundMe w).
Proof.
  induction 1 as [self msg_sender _usdcAddress t|ev w _ IH].
  - apply constructor_consistent.
  - by apply step_consistent.
Qed.

Lemma reachable_run evs w : reachable w → reachable (run evs w).
Proof.
  revert w. induction evs as [|ev evs IH]; intros w Hw; [done|].
  simpl. apply IH. by constructor.
Qed.

Lemma occurrences_notin d (l : list address) : d ∉ l → occurrences d l = 0%nat.
Proof.
  unfold occurrences. induction l as [|x l IH]; intros Hout; [done|].
  apply not_elem_of_cons in Hout as [Hne Hout].
  rewrite filter_cons_False by congruence. by apply IH.
Qed.

Lemma occurrences_NoDup d (l : list address) : NoDup l → d ∈ l → occurrences d l = 1%nat.
Proof.
  induction 1 as [|x l Hx Hnd IH]; intros Hin.
  - by apply not_elem_of_nil in Hin.
  - unfold occurrences in *. destruct (decide (x = d)) as [->|Hne].
    + rewrite filter_cons_True by done. simpl. f_equal. by apply occurrences_notin.
    + rewrite filter_cons_False by done.
      apply IH. apply elem_of_cons in Hin as [?|?]; [congruence|done].
Qed.

(** ** Runs without a withdrawal *)

Lemma roster_kept_by_step ev w d :
  is_sweep ev w = false →
  d ∈ s_funders (fundMe w) → d ∈ s_funders (fundMe (step ev w)).
Proof.
  intros Hns Hin. destruct ev as [[msg_sender _amount|msg_sender]|t]; simpl in *; [| |done].
  - destruct (succeeded (transact (fund msg_sender _amount) w)) eqn:Hs;
      [|by rewrite transact_failed].
    apply fund_succeeded in Hs as (_ & _ & t & _ & ->). simpl.
    case_decide; simpl; [|done]. apply elem_of_app. by left.
  - by rewrite transact_failed.
Qed.

Lemma roster_kept_by_run evs w d :
  never is_sweep evs w = true →
  d ∈ s_funders (fundMe w) → d ∈ s_funders (fundMe (run evs w)).
Proof.
  revert w. induction evs as [|ev evs IH]; intros w Hnever Hin; [done|].
  simpl in *. apply andb_true_iff in Hnever as [Hev Hrest].
  apply negb_true_iff in Hev. apply IH; [done|]. by apply roster_kept_by_step.
Qed.

Lemma amountFunded_kept_by_step ev w d :
  is_sweep ev w = false → is_deposit_of d ev w = false →
  amountFunded (fundMe (step ev w)) d = amountFunded (fundMe w) d.
Proof.
  intros Hns Hnd. destruct ev as [[msg_sender _amount|msg_sender]|t]; simpl in *; [| |done].
  - destruct (succeeded (transact (fund msg_sender _amount) w)) eqn:Hs;
      [|by rewrite transact_failed].
    rewrite andb_true_r in Hnd. apply bool_decide_eq_false in Hnd.
    apply fund_succeeded in Hs as (_ & _ & t & _ & ->). simpl.
    rewrite amountFunded_set_ne by done. by case_decide.
  - by rewrite transact_failed.
Qed.

Lemma amountFunded_kept_by_run evs w d :
  never is_sweep evs w = true → never (is_deposit_of d) evs w = true →
  amountFunded (fundMe (run evs w)) d = amountFunded (fundMe w) d.
Proof.
  revert w. induction evs as [|ev evs IH]; intros w Hsweep Hdep; [done|].
  simpl in *. apply andb_true_iff in Hsweep as [Hs1 Hs2].
  apply andb_true_iff in Hdep as [Hd1 Hd2].
  apply negb_true_iff in Hs1, Hd1.
  rewrite IH by done. by apply amountFunded_kept_by_step.
Qed.

Lemma funded_after_deposit msg_sender _amount w :
  succeeded (transact (fund msg_sender _amount) w) = true →
  amountFunded (fundMe (post (transact (fund msg_sender _amount) w))) msg_sender
    = amountFunded (fundMe w) msg_sender + _amount ∧ 0 < _amount.
Proof.
  intros Hs. apply fund_succeeded in Hs as (Hmin & _ & t & _ & ->). simpl.
  rewrite amountFunded_set_eq. split; [done|]. unfold MINIMUM_USDC in Hmin. lia.
Qed.

(** A successful withdrawal, whatever the roster holds. *)
Lemma withdraw_sweeps w t :
  let c := fundMe w in
  transfer (usdc w) (this c) (i_owner c) (balanceOf (usdc w) (this c)) = CallReturn true t →
  let r := transact (withdraw (i_owner c)) w in
  status r = Success ∧
  calls r = [Call_balanceOf (this c); Call_transfer (i_owner c) (balanceOf (usdc w) (this c))] ∧
  this (fundMe (post r)) = this c ∧
  i_owner (fundMe (post r)) = i_owner c ∧
  s_funders (fundMe (post r)) = [] ∧
  (∀ d, d ∈ s_funders c → amountFunded (fundMe (post r)) d = 0) ∧
  usdc (post r) = t.
Proof.
  intros c Hpush r. subst r. unfold transact. rewrite withdraw_eq. simpl.
  case_decide as Howner; [done|]. fold c. rewrite Hpush. simpl.
  destruct (sweep_immutables (s_funders c) c) as (? & ? & _).
  repeat split; try done. intros d Hd.
  by apply (amountFunded_sweep_in (s_funders c) c d).
Qed.

(** ** [fund] *)

(** C4. A deposit of an amount strictly below [MINIMUM_USDC], by any
    caller and in any state, fails with [FundMe__NotEnoughFunds] (the
    spec's InsufficientAmount); the contribution mapping and the roster
    are as before, and the token is not called. *)
Theorem fund_below_minimum msg_sender _amount w :
  _amount < MINIMUM_USDC →
  let r := transact (fund msg_sender _amount) w in
  status r = Failure FundMe__NotEnoughFunds ∧
  addressToAmountFunded (fundMe (post r)) = addressToAmountFunded (fundMe w) ∧
  s_funders (fundMe (post r)) = s_funders (fundMe w) ∧
  post r = w ∧
  calls r = [].
Proof.
  intros Hlt r. subst r. unfold transact. rewrite fund_eq. simpl.
  by case_decide.
Qed.

(** C5. A deposit of at least [MINIMUM_USDC] whose [transferFrom] returns
    [false] fails with [FundMe__TransferFailed]; the contribution mapping
    and the roster are exactly as before the call. *)
Theorem fund_pull_failure msg_sender _amount w t :
  MINIMUM_USDC ≤ _amount →
  transferFrom (usdc w) (this (fundMe w)) msg_sender (this (fundMe w)) _amount
    = CallReturn false t →
  let r := transact (fund msg_sender _amount) w in
  status r = Failure FundMe__TransferFailed ∧
  addressToAmountFunded (fundMe (post r)) = addressToAmountFunded (fundMe w) ∧
  s_funders (fundMe (post r)) = s_funders (fundMe w) ∧
  post r = w.
Proof.
  intros Hmin Hpull r. subst r. unfold transact. rewrite fund_eq. simpl.
  case_decide; [lia|]. by rewrite Hpull.
Qed.

(** When the token aborts the pull instead of returning [false], as the
    mock of the tests does, the deposit fails with the token's own error;
    the post-state is the pre-state all the same. *)
Lemma fund_pull_revert msg_sender _amount w e :
  MINIMUM_USDC ≤ _amount →
  transferFrom (usdc w) (this (fundMe w)) msg_sender (this (fundMe w)) _amount
    = CallRevert e →
  let r := transact (fund msg_sender _amount) w in
  status r = Failure (ExternalRevert e) ∧ post r = w.
Proof.
  intros Hmin Hpull r. subst r. unfold transact. rewrite fund_eq. simpl.
  case_decide; [lia|]. by rewrite Hpull.
Qed.

(** C7. When the caller's recorded contribution is zero, a successful
    deposit of [_amount] (which is then at least [MINIMUM_USDC]) appends
    the caller to the roster, once, and leaves the caller's contribution
    equal to [_amount]; in a reachable state the caller then occurs in the
    roster exactly once. *)
Theorem fund_first_deposit msg_sender _amount w :
  amountFunded (fundMe w) msg_sender = 0 →
  succeeded (transact (fund msg_sender _amount) w) = true →
  let c' := fundMe (post (transact (fund msg_sender _amount) w)) in
  MINIMUM_USDC ≤ _amount ∧
  s_funders c' = s_funders (fundMe w) ++ [msg_sender] ∧
  amountFunded c' msg_sender = _amount ∧
  (reachable w → occurrences msg_sender (s_funders c') = 1%nat).
Proof.
  intros Hzero Hs c'.
  assert (Hreach : reachable w → reachable (post (transact (fund msg_sender _amount) w))).
  { intros Hw. apply (reach_step (Tx (Fund msg_sender _amount)) w Hw). }
  pose proof Hs as (Hmin & _ & t & _ & Hpost)%fund_succeeded.
  subst c'. rewrite Hpost in *. simpl. rewrite Hzero.
  rewrite decide_True by done. simpl.
  split; [done|]. split; [done|]. split.
  - by rewrite amountFunded_set_eq, N.add_0_l.
  - intros Hw. apply Hreach, reachable_consistent in Hw as [Hnd _]. simpl in Hnd.
    rewrite Hzero, decide_True in Hnd by done. simpl in Hnd.
    apply occurrences_NoDup; [done|].
    apply elem_of_app. right. by apply list_elem_of_singleton.
Qed.

(** C8. An identity makes two successful deposits of [_a] and [_b]; in
    between, anything may happen except a successful withdrawal or a
    further deposit of the same identity. Its contribution has then grown
    by [_a + _b], so it equals [_a + _b] when the two deposits are all it
    has made since construction or the last sweep, and the identity occurs
    in the roster exactly once. *)
Theorem fund_twice_accumulates d _a _b mid w :
  reachable w →
  succeeded (transact (fund d _a) w) = true →
  let w1 := post (transact (fund d _a) w) in
  never is_sweep mid w1 = true →
  never (is_deposit_of d) mid w1 = true →
  let w2 := run mid w1 in
  succeeded (transact (fund d _b) w2) = true →
  let c3 := fundMe (post (transact (fund d _b) w2)) in
  amountFunded c3 d = amountFunded (fundMe w) d + _a + _b ∧
  (amountFunded (fundMe w) d = 0 → amountFunded c3 d = _a + _b) ∧
  occurrences d (s_funders c3) = 1%nat.
Proof.
  intros Hw Hs1 w1 Hsweep Hdep w2 Hs2 c3.
  destruct (funded_after_deposit _ _ _ Hs1) as [H1 _].
  destruct (funded_after_deposit _ _ _ Hs2) as [H2 Hpos].
  fold w1 in H1. fold c3 in H2.
  assert (Hsum : amountFunded c3 d = amountFunded (fundMe w) d + _a + _b).
  { rewrite H2. unfold w2. rewrite amountFunded_kept_by_run by done. by rewrite H1. }
  split; [done|]. split; [intros Hz; rewrite Hsum, Hz; lia|].
  assert (Hr3 : reachable (post (transact (fund d _b) w2))).
  { apply (reach_step (Tx (Fund d _b))). apply reachable_run.
    by apply (reach_step (Tx (Fund d _a))). }
  apply reachable_consistent in Hr3 as [Hnd Hiff]. fold c3 in Hnd, Hiff.
  apply occurrences_NoDup; [done|]. apply Hiff. lia.
Qed.

(** ** [withdraw] *)

(** C6. A withdrawal by anyone but the owner fails with
    [FundMe__NotOwner]; contribution mapping, roster and token balances
    are unchanged. *)
Theorem withdraw_not_owner msg_sender w :
  msg_sender ≠ i_owner (fundMe w) →
  let r := transact (withdraw msg_sender) w in
  status r = Failure FundMe__NotOwner ∧
  addressToAmountFunded (fundMe (post r)) = addressToAmountFunded (fundMe w) ∧
  s_funders (fundMe (post r)) = s_funders (fundMe w) ∧
  (∀ a, balanceOf (usdc (post r)) a = balanceOf (usdc w) a) ∧
  post r = w.
Proof.
  intros Hne r. subst r. unfold transact. rewrite withdraw_eq. simpl.
  by case_decide.
Qed.

(** C1, amended. When the owner withdraws and the final [transfer]
    returns [false], the call fails with [FundMe__TransferFailed] and the
    revert rolls the ledger back: every contribution entry, the roster and
    the token balance held for the ledger are as before the call. The
    zeroed mapping and the empty roster exist only in the state the body
    had reached when it reverted, which is discarded. *)
Theorem withdraw_push_failure_rolls_back w t :
  let c := fundMe w in
  transfer (usdc w) (this c) (i_owner c) (balanceOf (usdc w) (this c))
    = CallReturn false t →
  let r := transact (withdraw (i_owner c)) w in
  status r = Failure FundMe__TransferFailed ∧
  (∀ d, amountFunded (fundMe (post r)) d = amountFunded c d) ∧
  s_funders (fundMe (post r)) = s_funders c ∧
  balanceOf (usdc (post r)) (this c) = balanceOf (usdc w) (this c) ∧
  post r = w ∧
  ∃ discarded,
    (withdraw (i_owner c) w).2 = Reverted FundMe__TransferFailed discarded ∧
    s_funders (fundMe discarded) = [] ∧
    ∀ d, d ∈ s_funders c → amountFunded (fundMe discarded) d = 0.
Proof.
  intros c Hpush r. subst r. unfold transact. rewrite withdraw_eq. simpl.
  case_decide as Howner; [done|]. fold c. rewrite Hpush. simpl.
  repeat split; try done.
  eexists. split; [done|]. split; [done|]. intros d Hd.
  by apply (amountFunded_sweep_in (s_funders c) c d).
Qed.

(** C3. The roster is [F1; F2] with contributions 100 and 250, the token
    holds for the ledger exactly the accounting total (nothing was sent to
    it out of band), the token honours the ERC20 contract of [transfer],
    and the owner (who is not the ledger itself) withdraws with the push
    succeeding: both contributions are then 0, the roster has length 0, the
    ledger's token balance is 0 and the owner's has grown by exactly 350. *)
Theorem withdraw_sweep_two_funders F1 F2 w t :
  let c := fundMe w in
  transfer_moves_funds →
  i_owner c ≠ this c →
  s_funders c = [F1; F2] →
  amountFunded c F1 = 100 →
  amountFunded c F2 = 250 →
  balanceOf (usdc w) (this c) = total_funded c →
  transfer (usdc w) (this c) (i_owner c) (balanceOf (usdc w) (this c)) = CallReturn true t →
  let r := transact (withdraw (i_owner c)) w in
  status r = Success ∧
  amountFunded (fundMe (post r)) F1 = 0 ∧
  amountFunded (fundMe (post r)) F2 = 0 ∧
  length (s_funders (fundMe (post r))) = 0%nat ∧
  balanceOf (usdc (post r)) (this (fundMe (post r))) = 0 ∧
  balanceOf (usdc (post r)) (i_owner c) = balanceOf (usdc w) (i_owner c) + 350.
Proof.
  intros c Hlaw Hself Hroster HF1 HF2 Hbal Hpush r.
  assert (Htotal : balanceOf (usdc w) (this c) = 350).
  { rewrite Hbal. unfold total_funded. rewrite Hroster. simpl. rewrite HF1, HF2. lia. }
  destruct (withdraw_sweeps w t Hpush) as (Hst & _ & Hthis & _ & Hnil & Hzero & Ht).
  fold c r in Hst, Hthis, Hnil, Hzero, Ht.
  destruct (Hlaw _ _ _ _ _ Hpush) as (_ & Hfrom & Hto); [done|].
  rewrite Hroster in Hzero.
  split; [done|].
  split; [apply Hzero, elem_of_cons; by left|].
  split; [apply Hzero, elem_of_cons; right; apply elem_of_cons; by left|].
  split; [by rewrite Hnil|]. rewrite Ht, Hthis.
  split; [rewrite Hfrom; lia|]. by rewrite Hto, Htotal.
Qed.

(** ** Invariants *)

(** C9. In every state reachable from construction, no identity occurs
    twice in the roster. *)
Theorem roster_no_duplicates w :
  reachable w → NoDup (s_funders (fundMe w)).
Proof. intros Hw. by apply reachable_consistent in Hw as [Hnd _]. Qed.

(** C10. In every state reachable from construction, an identity is in
    the roster if and only if its recorded contribution is nonzero; so the
    test [fund] makes before appending, contribution equal to zero, holds
    exactly when the caller is not in the roster. *)
Theorem roster_iff_funded w d :
  reachable w →
  (d ∈ s_funders (fundMe w) ↔ amountFunded (fundMe w) d ≠ 0) ∧
  (amountFunded (fundMe w) d = 0 ↔ d ∉ s_funders (fundMe w)).
Proof.
  intros Hw. apply reachable_consistent in Hw as [_ Hiff].
  split; [done|]. rewrite Hiff.
  destruct (decide (amountFunded (fundMe w) d = 0)); tauto.
Qed.

(** C2, amended. After a successful deposit of [d] in a reachable state,
    [d] stays in the roster through every later run of events that
    contains no successful withdrawal; a successful withdrawal resets
    [d]'s contribution to zero and empties the roster, so [d] is no
    longer listed. *)
Theorem roster_kept_until_withdraw d _amount w evs :
  reachable w →
  succeeded (transact (fund d _amount) w) = true →
  let w1 := post (transact (fund d _amount) w) in
  (never is_sweep evs w1 = true → d ∈ s_funders (fundMe (run evs w1))) ∧
  (∀ msg_sender,
      succeeded (transact (withdraw msg_sender) (run evs w1)) = true →
      let c' := fundMe (post (transact (withdraw msg_sender) (run evs w1))) in
      s_funders c' = [] ∧ (d ∉ s_funders c') ∧ amountFunded c' d = 0).
Proof.
  intros Hw Hs w1.
  assert (Hr1 : reachable w1) by (by apply (reach_step (Tx (Fund d _amount)))).
  split.
  - intros Hnever. apply roster_kept_by_run; [done|].
    destruct (funded_after_deposit _ _ _ Hs) as [Hsum Hpos]. fold w1 in Hsum.
    apply reachable_consistent in Hr1 as [_ Hiff]. apply Hiff. lia.
  - intros msg_sender Hsw c'.
    assert (Hr2 : reachable (post (transact (withdraw msg_sender) (run evs w1)))).
    { apply (reach_step (Tx (Withdraw msg_sender))). by apply reachable_run. }
    apply reachable_consistent in Hr2 as [_ Hiff]. fold c' in Hiff.
    apply withdraw_succeeded in Hsw as (_ & t & _ & Hpost).
    assert (Hnil : s_funders c' = []) by (subst c'; by rewrite Hpost).
    split; [done|]. rewrite Hnil. split; [apply not_elem_of_nil|].
    destruct (decide (amountFunded c' d = 0)) as [|Hnz]; [done|].
    apply Hiff in Hnz. rewrite Hnil in Hnz. by apply not_elem_of_nil in Hnz.
Qed.

End Properties.

(** * The scenario *)

Ltac by_computation := vm_compute; first [reflexivity | discriminate | congruence].

(** The mock honours the ERC20 contract of [transfer]. *)
Lemma mock_transfer_moves_funds : transfer_moves_funds (T := MockUSDC).
Proof.
  intros t sender to amount t' Hpush Hne. simpl in *.
  unfold mock_transfer in Hpush.
  destruct (paused t); [done|]. case_decide as Hbal; [done|].
  injection Hpush as <-. split; [lia|].
  unfold mock_balanceOf, mock_move; simpl. split.
  - rewrite lookup_insert_ne by done. by rewrite lookup_insert_eq.
  - rewrite lookup_insert_eq. by rewrite lookup_insert_ne by done.
Qed.

Lemma reachable_approved : reachable approved.
Proof. apply reach_step, reach_deploy. Qed.

Lemma reachable_funded : reachable funded.
Proof. apply reach_step, reachable_approved. Qed.

(** The tests of [test/FundMe.t.sol], replayed on the model. *)

Example testMinimumUSDC : MINIMUM_USDC = 1 * 10 ^ 6.
Proof. reflexivity. Qed.

Example testFundFailsWithoutEnoughUSDC :
  status (transact (fund USER (10 * 10 ^ 6)) setUp)
  = Failure (ExternalRevert (ERC20InsufficientAllowance FUNDME 0 (10 * 10 ^ 6))).
Proof. by_computation. Qed.

Example testFundFailsWithoutAllowance :
  status (transact (fund USER SEND_VALUE) setUp)
  = Failure (ExternalRevert (ERC20InsufficientAllowance FUNDME 0 SEND_VALUE)).
Proof. by_computation. Qed.

Example testFundUpdatesDataStructures :
  amountFunded (fundMe funded) USER = SEND_VALUE ∧ s_funders (fundMe funded) !! 0%nat = Some USER.
Proof. split; by_computation. Qed.

Example testOnlyOwnerCanWithdraw :
  status (transact (withdraw USER) funded) = Failure FundMe__NotOwner.
Proof. by_computation. Qed.

Example testWithdrawWithASingleFunder :
  balanceOf (usdc swept) FUNDME = 0 ∧
  balanceOf (usdc funded) FUNDME + balanceOf (usdc funded) OWNER = balanceOf (usdc swept) OWNER.
Proof. split; by_computation. Qed.

(** * Instances of the theorems *)

Lemma fund_below_minimum_witness :
  5 < MINIMUM_USDC ∧
  status (transact (fund USER 5) setUp) = Failure FundMe__NotEnoughFunds ∧
  post (transact (fund USER 5) setUp) = setUp ∧
  calls (transact (fund USER 5) setUp) = [].
Proof.
  assert (Hlt : 5 < MINIMUM_USDC) by reflexivity.
  destruct (fund_below_minimum USER 5 setUp Hlt) as (Hst & _ & _ & Hpost & Hcalls).
  exact (conj Hlt (conj Hst (conj Hpost Hcalls))).
Defined.

Lemma fund_pull_failure_witness :
  MINIMUM_USDC ≤ SEND_VALUE ∧
  transferFrom (usdc frozen) FUNDME USER FUNDME SEND_VALUE = CallReturn false (usdc frozen) ∧
  status (transact (fund USER SEND_VALUE) frozen) = Failure FundMe__TransferFailed ∧
  post (transact (fund USER SEND_VALUE) frozen) = frozen.
Proof.
  assert (Hmin : MINIMUM_USDC ≤ SEND_VALUE) by by_computation.
  assert (Hpull : transferFrom (usdc frozen) (this (fundMe frozen)) USER (this (fundMe frozen))
                    SEND_VALUE = CallReturn false (usdc frozen)) by by_computation.
  destruct (fund_pull_failure USER SEND_VALUE frozen (usdc frozen) Hmin Hpull)
    as (Hst & _ & _ & Hpost).
  exact (conj Hmin (conj Hpull (conj Hst Hpost))).
Defined.

Lemma fund_first_deposit_witness :
  amountFunded (fundMe approved) USER = 0 ∧
  succeeded (transact (fund USER SEND_VALUE) approved) = true ∧
  s_funders (fundMe funded) = s_funders (fundMe approved) ++ [USER] ∧
  amountFunded (fundMe funded) USER = SEND_VALUE ∧
  occurrences USER (s_funders (fundMe funded)) = 1%nat.
Proof.
  assert (Hzero : amountFunded (fundMe approved) USER = 0) by by_computation.
  assert (Hs : succeeded (transact (fund USER SEND_VALUE) approved) = true) by by_computation.
  destruct (fund_first_deposit USER SEND_VALUE approved Hzero Hs) as (_ & Hroster & Hamt & Hocc).
  exact (conj Hzero (conj Hs (conj Hroster (conj Hamt (Hocc reachable_approved))))).
Defined.

Lemma fund_twice_accumulates_witness :
  reachable approved ∧
  succeeded (transact (fund USER SEND_VALUE) approved) = true ∧
  never is_sweep interlude funded = true ∧
  never (is_deposit_of USER) interlude funded = true ∧
  succeeded (transact (fund USER (250 * 10 ^ 6)) (run interlude funded)) = true ∧
  amountFunded (fundMe (post (transact (fund USER (250 * 10 ^ 6)) (run interlude funded)))) USER
    = SEND_VALUE + 250 * 10 ^ 6 ∧
  occurrences USER
    (s_funders (fundMe (post (transact (fund USER (250 * 10 ^ 6)) (run interlude funded)))))
    = 1%nat.
Proof.
  assert (Hs1 : succeeded (transact (fund USER SEND_VALUE) approved) = true) by by_computation.
  assert (Hsweep : never is_sweep interlude funded = true) by by_computation.
  assert (Hdep : never (is_deposit_of USER) interlude funded = true) by by_computation.
  assert (Hs2 : succeeded (transact (fund USER (250 * 10 ^ 6)) (run interlude funded)) = true)
    by by_computation.
  assert (Hzero : amountFunded (fundMe approved) USER = 0) by by_computation.
  destruct (fund_twice_accumulates USER SEND_VALUE (250 * 10 ^ 6) interlude approved
              reachable_approved Hs1 Hsweep Hdep Hs2) as (_ & Hsum & Hocc).
  exact (conj reachable_approved (conj Hs1 (conj Hsweep (conj Hdep (conj Hs2
          (conj (Hsum Hzero) Hocc)))))).
Defined.

Lemma withdraw_not_owner_witness :
  USER ≠ i_owner (fundMe funded) ∧
  status (transact (withdraw USER) funded) = Failure FundMe__NotOwner ∧
  post (transact (withdraw USER) funded) = funded.
Proof.
  assert (Hne : USER ≠ i_owner (fundMe funded)) by by_computation.
  destruct (withdraw_not_owner USER funded Hne) as (Hst & _ & _ & _ & Hpost).
  exact (conj Hne (conj Hst Hpost)).
Defined.

Lemma withdraw_push_failure_rolls_back_witness :
  transfer (usdc frozen) FUNDME OWNER (balanceOf (usdc frozen) FUNDME)
    = CallReturn false (usdc frozen) ∧
  status (transact (withdraw OWNER) frozen) = Failure FundMe__TransferFailed ∧
  amountFunded (fundMe (post (transact (withdraw OWNER) frozen))) USER = SEND_VALUE ∧
  s_funders (fundMe (post (transact (withdraw OWNER) frozen))) = [USER] ∧
  balanceOf (usdc (post (transact (withdraw OWNER) frozen))) FUNDME = SEND_VALUE.
Proof.
  assert (Hpush : transfer (usdc frozen) (this (fundMe frozen)) (i_owner (fundMe frozen))
                    (balanceOf (usdc frozen) (this (fundMe frozen)))
                  = CallReturn false (usdc frozen)) by by_computation.
  destruct (withdraw_push_failure_rolls_back frozen (usdc frozen) Hpush)
    as (Hst & Hamt & Hroster & Hbal & _).
  refine (conj Hpush (conj Hst (conj _ (conj _ _)))).
  - exact (eq_trans (Hamt USER) (eq_refl SEND_VALUE)).
  - exact (eq_trans Hroster (eq_refl [USER])).
  - exact (eq_trans Hbal (eq_refl SEND_VALUE)).
Defined.

Lemma withdraw_sweep_two_funders_witness :
  transfer_moves_funds (T := MockUSDC) ∧
  i_owner (fundMe two_funders) ≠ this (fundMe two_funders) ∧
  s_funders (fundMe two_funders) = [USER; USER2] ∧
  amountFunded (fundMe two_funders) USER = 100 ∧
  amountFunded (fundMe two_funders) USER2 = 250 ∧
  balanceOf (usdc two_funders) FUNDME = total_funded (fundMe two_funders) ∧
  status (transact (withdraw OWNER) two_funders) = Success ∧
  amountFunded (fundMe (post (transact (withdraw OWNER) two_funders))) USER = 0 ∧
  amountFunded (fundMe (post (transact (withdraw OWNER) two_funders))) USER2 = 0 ∧
  length (s_funders (fundMe (post (transact (withdraw OWNER) two_funders)))) = 0%nat ∧
  balanceOf (usdc (post (transact (withdraw OWNER) two_funders))) FUNDME = 0 ∧
  balanceOf (usdc (post (transact (withdraw OWNER) two_funders))) OWNER
    = balanceOf (usdc two_funders) OWNER + 350.
Proof.
  assert (Hself : i_owner (fundMe two_funders) ≠ this (fundMe two_funders)) by by_computation.
  assert (Hroster : s_funders (fundMe two_funders) = [USER; USER2]) by reflexivity.
  assert (HF1 : amountFunded (fundMe two_funders) USER = 100) by by_computation.
  assert (HF2 : amountFunded (fundMe two_funders) USER2 = 250) by by_computation.
  assert (Hbal : balanceOf (usdc two_funders) (this (fundMe two_funders))
                 = total_funded (fundMe two_funders)) by by_computation.
  assert (Hpush : transfer (usdc two_funders) (this (fundMe two_funders))
                    (i_owner (fundMe two_funders))
                    (balanceOf (usdc two_funders) (this (fundMe two_funders)))
                  = CallReturn true (mock_move FUNDME OWNER 350 (usdc two_funders)))
    by by_computation.
  pose proof (withdraw_sweep_two_funders USER USER2 two_funders _
                mock_transfer_moves_funds Hself Hroster HF1 HF2 Hbal Hpush) as Hpost.
  exact (conj mock_transfer_moves_funds (conj Hself (conj Hroster (conj HF1 (conj HF2
          (conj Hbal Hpost)))))).
Defined.

Lemma roster_no_duplicates_witness :
  reachable funded ∧ NoDup (s_funders (fundMe funded)).
Proof. exact (conj reachable_funded (roster_no_duplicates funded reachable_funded)). Defined.

Lemma roster_iff_funded_witness :
  reachable funded ∧
  (USER ∈ s_funders (fundMe funded) ↔ amountFunded (fundMe funded) USER ≠ 0) ∧
  (amountFunded (fundMe funded) OWNER = 0 ↔ OWNER ∉ s_funders (fundMe funded)).
Proof.
  exact (conj reachable_funded
          (conj (proj1 (roster_iff_funded funded USER reachable_funded))
                (proj2 (roster_iff_funded funded OWNER reachable_funded)))).
Defined.

Lemma roster_kept_until_withdraw_witness :
  reachable approved ∧
  succeeded (transact (fund USER SEND_VALUE) approved) = true ∧
  never is_sweep aftermath funded = true ∧
  USER ∈ s_funders (fundMe (run aftermath funded)) ∧
  succeeded (transact (withdraw OWNER) funded) = true ∧
  s_funders (fundMe swept) = [] ∧
  amountFunded (fundMe swept) USER = 0.
Proof.
  assert (Hs : succeeded (transact (fund USER SEND_VALUE) approved) = true) by by_computation.
  assert (Hnever : never is_sweep aftermath funded = true) by by_computation.
  assert (Hsw : succeeded (transact (withdraw OWNER) funded) = true) by by_computation.
  destruct (roster_kept_until_withdraw USER SEND_VALUE approved aftermath
              reachable_approved Hs) as [Hkept _].
  destruct (roster_kept_until_withdraw USER SEND_VALUE approved []
              reachable_approved Hs) as [_ Hswept].
  destruct (Hswept OWNER Hsw) as (Hnil & _ & Hzero).
  exact (conj reachable_approved (conj Hs (conj Hnever (conj (Hkept Hnever)
          (conj Hsw (conj Hnil Hzero)))))).
Defined.

(** * What the code does not do *)

(** C1, as stated, fails. The user has funded [SEND_VALUE] and the token is
    paused; the owner withdraws, the push returns [false] and the call
    fails with [FundMe__TransferFailed], but the user's contribution is
    still [SEND_VALUE] and the user is still in the roster: the ledger is
    not left zeroed and emptied. *)
Lemma withdraw_push_failure_not_zeroed :
  reachable frozen ∧
  i_owner (fundMe frozen) = OWNER ∧
  transfer (usdc frozen) (this (fundMe frozen)) OWNER
    (balanceOf (usdc frozen) (this (fundMe frozen))) = CallReturn false (usdc frozen) ∧
  status (transact (withdraw OWNER) frozen) = Failure FundMe__TransferFailed ∧
  amountFunded (fundMe (post (transact (withdraw OWNER) frozen))) USER = SEND_VALUE ∧
  s_funders (fundMe (post (transact (withdraw OWNER) frozen))) = [USER] ∧
  ¬ ((∀ d, amountFunded (fundMe (post (transact (withdraw OWNER) frozen))) d = 0) ∧
     s_funders (fundMe (post (transact (withdraw OWNER) frozen))) = []).
Proof.
  split; [apply reach_step, reachable_funded|].
  split; [reflexivity|]. split; [by_computation|]. split; [by_computation|].
  split; [by_computation|]. split; [by_computation|].
  intros [_ Hnil]. vm_compute in Hnil. discriminate.
Qed.

(** C2, as stated, fails. The user makes a successful deposit; the owner
    then withdraws successfully, and the user is no longer in the roster. *)
Lemma roster_emptied_by_withdraw :
  reachable approved ∧
  succeeded (transact (fund USER SEND_VALUE) approved) = true ∧
  USER ∈ s_funders (fundMe funded) ∧
  succeeded (transact (withdraw OWNER) funded) = true ∧
  s_funders (fundMe swept) = [] ∧
  ¬ (USER ∈ s_funders (fundMe swept)).
Proof.
  split; [apply reachable_approved|].
  split; [by_computation|]. split; [apply elem_of_cons; by left|].
  split; [by_computation|]. split; [by_computation|].
  intros Hin. vm_compute in Hin. by apply not_elem_of_nil in Hin.
Qed.

(** * Further properties of the ledger *)

Section Ledger_more.
Context {T : Type} {token : IERC20 T}.
Implicit Types (w : World T) (c : FundMe) (d : address).

Lemma step_immutables ev w :
  this (fundMe (step ev w)) = this (fundMe w) ∧
  i_owner (fundMe (step ev w)) = i_owner (fundMe w) ∧
  usdcToken (fundMe (step ev w)) = usdcToken (fundMe w).
Proof.
  destruct ev as [[msg_sender _amount|msg_sender]|t]; simpl; [| |done].
  - destruct (succeeded (transact (fund msg_sender _amount) w)) eqn:Hs;
      [|by rewrite transact_failed].
    apply fund_succeeded in Hs as (_ & _ & t & _ & ->). simpl. by case_decide.
  - destruct (succeeded (transact (withdraw msg_sender) w)) eqn:Hs;
      [|by rewrite transact_failed].
    apply withdraw_succeeded in Hs as (_ & t & _ & ->). simpl.
    by destruct (sweep_immutables (s_funders (fundMe w)) (fundMe w)) as (-> & -> & ->).
Qed.

Lemma run_immutables evs w :
  this (fundMe (run evs w)) = this (fundMe w) ∧
  i_owner (fundMe (run evs w)) = i_owner (fundMe w) ∧
  usdcToken (fundMe (run evs w)) = usdcToken (fundMe w).
Proof.
  revert w. induction evs as [|ev evs IH]; intros w; [done|]. simpl.
  destruct (IH (step ev w)) as (-> & -> & ->). apply step_immutables.
Qed.

(** X1. Whatever happens after deployment (deposits, withdrawals, failed
    calls, token traffic), the ledger's own address, its owner and its
    token reference are the ones fixed by the constructor: the owner is
    the deployer, the token reference is the constructor's argument. *)
Theorem immutables_never_change self msg_sender _usdcAddress t evs :
  let w := run evs (deploy self msg_sender _usdcAddress t) in
  this (fundMe w) = self ∧
  i_owner (fundMe w) = msg_sender ∧
  usdcToken (fundMe w) = _usdcAddress.
Proof. intros w. apply (run_immutables evs (deploy self msg_sender _usdcAddress t)). Qed.

(** ** [fund] *)

(** X2. A deposit goes through exactly when the amount reaches
    [MINIMUM_USDC], the token's [transferFrom] returns [true], and the
    caller's new total still fits a [uint256]. *)
Theorem fund_succeeds_iff msg_sender _amount w :
  succeeded (transact (fund msg_sender _amount) w) = true ↔
  MINIMUM_USDC ≤ _amount ∧
  (∃ t, transferFrom (usdc w) (this (fundMe w)) msg_sender (this (fundMe w)) _amount
        = CallReturn true t) ∧
  amountFunded (fundMe w) msg_sender + _amount ≤ MAX_UINT256.
Proof.
  split.
  - intros (Hmin & Hmax & t & Hpull & _)%fund_succeeded. eauto.
  - intros (Hmin & [t Hpull] & Hmax).
    unfold succeeded, transact. rewrite fund_eq. simpl.
    case_decide; [lia|]. rewrite Hpull. by rewrite decide_True by done.
Qed.

(** X3. When the pull succeeds but the caller's total would exceed the
    largest [uint256], the deposit reverts with the arithmetic panic
    [Panic(0x11)]; the ledger and the token are as before, so the pulled
    tokens are back with the caller. *)
Theorem fund_overflow_panics msg_sender _amount w t :
  MINIMUM_USDC ≤ _amount →
  transferFrom (usdc w) (this (fundMe w)) msg_sender (this (fundMe w)) _amount
    = CallReturn true t →
  MAX_UINT256 < amountFunded (fundMe w) msg_sender + _amount →
  let r := transact (fund msg_sender _amount) w in
  status r = Failure (Panic 0x11) ∧
  post r = w ∧
  calls r = [Call_transferFrom msg_sender (this (fundMe w)) _amount].
Proof.
  intros Hmin Hpull Hover r. subst r. unfold transact. rewrite fund_eq. simpl.
  case_decide; [lia|]. rewrite Hpull. by rewrite decide_False by lia.
Qed.

(** X4. A successful deposit by an identity whose contribution is already
    nonzero leaves the roster exactly as it was and adds the amount to the
    contribution. *)
Theorem fund_repeat_deposit msg_sender _amount w :
  amountFunded (fundMe w) msg_sender ≠ 0 →
  succeeded (transact (fund msg_sender _amount) w) = true →
  let c' := fundMe (post (transact (fund msg_sender _amount) w)) in
  s_funders c' = s_funders (fundMe w) ∧
  amountFunded c' msg_sender = amountFunded (fundMe w) msg_sender + _amount.
Proof.
  intros Hnz (_ & _ & t & _ & Hpost)%fund_succeeded c'. subst c'. rewrite Hpost. simpl.
  rewrite decide_False by done. split; [done|]. apply amountFunded_set_eq.
Qed.

(** X5. A successful deposit touches no one else: every other identity
    keeps its contribution and its place in, or absence from, the roster,
    and the roster keeps its earlier entries in front, in order. *)
Theorem fund_leaves_others msg_sender _amount w d :
  succeeded (transact (fund msg_sender _amount) w) = true →
  d ≠ msg_sender →
  let c' := fundMe (post (transact (fund msg_sender _amount) w)) in
  amountFunded c' d = amountFunded (fundMe w) d ∧
  (d ∈ s_funders c' ↔ d ∈ s_funders (fundMe w)) ∧
  s_funders (fundMe w) `prefix_of` s_funders c'.
Proof.
  intros (_ & _ & t & _ & Hpost)%fund_succeeded Hne c'. subst c'. rewrite Hpost. simpl.
  rewrite amountFunded_set_ne by done. case_decide; simpl.
  - split; [done|]. split; [|by apply prefix_app_r].
    rewrite elem_of_app, list_elem_of_singleton. tauto.
  - done.
Qed.

(** X6. A deposit calls the token at most once, and only to pull exactly
    the deposited amount from the caller to the ledger itself: nothing is
    called when the amount is below [MINIMUM_USDC], and otherwise the one
    call is [transferFrom(msg.sender, address(this), _amount)], whatever
    the outcome. *)
Theorem fund_single_pull msg_sender _amount w :
  calls (transact (fund msg_sender _amount) w) =
    if decide (_amount < MINIMUM_USDC) then []
    else [Call_transferFrom msg_sender (this (fundMe w)) _amount].
Proof.
  unfold transact. rewrite fund_eq. simpl. case_decide; [done|].
  destruct (transferFrom _ _ _ _ _) as [[|] t|e]; [|done..].
  by case_decide.
Qed.

(** ** [withdraw] *)


(** X8. In any state, a successful withdrawal resets the contribution of
    the identities in the roster and of no one else: an identity outside
    the roster keeps its entry. *)
Theorem withdraw_resets_roster_only msg_sender w d :
  succeeded (transact (withdraw msg_sender) w) = true →
  amountFunded (fundMe (post (transact (withdraw msg_sender) w))) d =
    if decide (d ∈ s_funders (fundMe w)) then 0 else amountFunded (fundMe w) d.
Proof.
  intros (_ & t & _ & Hpost)%withdraw_succeeded. rewrite Hpost. simpl.
  change (amountFunded (sweep (s_funders (fundMe w)) (fundMe w)) d
          = if decide (d ∈ s_funders (fundMe w)) then 0 else amountFunded (fundMe w) d).
  case_decide.
  - by apply amountFunded_sweep_in.
  - by apply amountFunded_sweep_notin.
Qed.

(** X9. In a state reachable from construction, a successful withdrawal
    leaves every identity, listed or not, with a zero contribution, and the
    accounting total at zero. *)
Theorem withdraw_clears_everything msg_sender w :
  reachable w →
  succeeded (transact (withdraw msg_sender) w) = true →
  let c' := fundMe (post (transact (withdraw msg_sender) w)) in
  (∀ d, amountFunded c' d = 0) ∧ total_funded c' = 0.
Proof.
  intros Hw (_ & t & _ & Hpost)%withdraw_succeeded c'. subst c'. rewrite Hpost.
  split; [|done]. intros d.
  change (amountFunded (sweep (s_funders (fundMe w)) (fundMe w)) d = 0).
  destruct (decide (d ∈ s_funders (fundMe w))) as [Hin|Hout];
    [by apply amountFunded_sweep_in|].
  rewrite amountFunded_sweep_notin by done.
  apply reachable_consistent in Hw as [_ Hiff].
  destruct (decide (amountFunded (fundMe w) d = 0)) as [|Hnz]; [done|].
  by apply Hiff in Hnz.
Qed.

(** X10. With an empty roster, a withdrawal by the owner leaves the
    ledger's storage untouched, whether the push succeeds or not; when the
    token holds nothing for the ledger, the push is a transfer of zero. *)
Theorem withdraw_empty_roster w :
  let c := fundMe w in
  s_funders c = [] →
  let r := transact (withdraw (i_owner c)) w in
  fundMe (post r) = c ∧
  (balanceOf (usdc w) (this c) = 0 →
   calls r = [Call_balanceOf (this c); Call_transfer (i_owner c) 0]).
Proof.
  intros c Hnil r. subst r. unfold transact. rewrite withdraw_eq. simpl.
  case_decide as Howner; [done|]. fold c. rewrite Hnil. simpl.
  assert (Hsame : set_funders [] c = c) by (destruct c; simpl in *; by subst).
  destruct (transfer _ _ _ _) as [[|] t|e]; simpl; (split; [done|by intros ->]).
Qed.

(** X21. Tokens leave the ledger only through the owner: whenever a
    transaction on the ledger calls the token's [transfer], the transaction
    is a withdrawal sent by the owner, the recipient is the owner, and the
    amount is the whole balance held for the ledger. *)
Theorem only_owner_is_paid op w to amount :
  Call_transfer to amount ∈ calls (transact (exec op) w) →
  op = Withdraw (i_owner (fundMe w)) ∧
  to = i_owner (fundMe w) ∧
  amount = balanceOf (usdc w) (this (fundMe w)).
Proof.
  destruct op as [msg_sender _amount|msg_sender]; simpl; unfold transact.
  - rewrite fund_eq. simpl. intros Hin. exfalso.
    case_decide; [|destruct (transferFrom _ _ _ _ _) as [[|] t|e]; [case_decide|..]];
      simpl in Hin;
      repeat (apply elem_of_cons in Hin as [?|Hin]; [done|]);
      by apply not_elem_of_nil in Hin.
  - rewrite withdraw_eq. simpl. case_decide as Howner.
    + intros Hin. by apply not_elem_of_nil in Hin.
    + assert (Hin' : Call_transfer to amount
                       ∈ [Call_balanceOf (this (fundMe w));
                          Call_transfer (i_owner (fundMe w))
                            (balanceOf (usdc w) (this (fundMe w)))] →
                     msg_sender = i_owner (fundMe w) → 
                     Withdraw msg_sender = Withdraw (i_owner (fundMe w)) ∧
                     to = i_owner (fundMe w) ∧
                     amount = balanceOf (usdc w) (this (fundMe w))).
      { intros Hin ->. apply elem_of_cons in Hin as [?|Hin]; [done|].
        apply elem_of_cons in Hin as [Heq|Hin]; [|by apply not_elem_of_nil in Hin].
        by injection Heq as -> ->. }
      assert (Hown : msg_sender = i_owner (fundMe w))
        by (destruct (decide (msg_sender = i_owner (fundMe w))); [done|contradiction]).
      destruct (transfer _ _ _ _) as [[|] t|e]; simpl; intros Hin; by apply Hin'.
Qed.

(** ** Invariants and runs *)

Lemma step_entries_bounded ev w :
  (∀ d, amountFunded (fundMe w) d = 0 ∨
        MINIMUM_USDC ≤ amountFunded (fundMe w) d ≤ MAX_UINT256) →
  ∀ d, amountFunded (fundMe (step ev w)) d = 0 ∨
       MINIMUM_USDC ≤ amountFunded (fundMe (step ev w)) d ≤ MAX_UINT256.
Proof.
  intros Hw d. destruct ev as [[msg_sender _amount|msg_sender]|t]; simpl; [| |done].
  - destruct (succeeded (transact (fund msg_sender _amount) w)) eqn:Hs;
      [|by rewrite transact_failed].
    apply fund_succeeded in Hs as (Hmin & Hmax & t & _ & ->). simpl.
    destruct (decide (d = msg_sender)) as [->|Hne].
    + rewrite amountFunded_set_eq. right. lia.
    + rewrite amountFunded_set_ne by done.
      replace (amountFunded _ d) with (amountFunded (fundMe w) d) by (by case_decide).
      apply Hw.
  - destruct (succeeded (transact (withdraw msg_sender) w)) eqn:Hs;
      [|by rewrite transact_failed].
    apply withdraw_succeeded in Hs as (_ & t & _ & ->).
    change (amountFunded (sweep (s_funders (fundMe w)) (fundMe w)) d = 0 ∨
            MINIMUM_USDC ≤ amountFunded (sweep (s_funders (fundMe w)) (fundMe w)) d
              ≤ MAX_UINT256).
    destruct (decide (d ∈ s_funders (fundMe w))).
    + left. by apply amountFunded_sweep_in.
    + rewrite amountFunded_sweep_notin by done. apply Hw.
Qed.

(** X11. In every state reachable from construction, each recorded
    contribution is either zero or at least [MINIMUM_USDC], and fits a
    [uint256]: the ledger never holds an entry below the threshold. *)
Theorem entries_bounded w d :
  reachable w →
  amountFunded (fundMe w) d = 0 ∨
  MINIMUM_USDC ≤ amountFunded (fundMe w) d ≤ MAX_UINT256.
Proof.
  intros Hw. revert d. induction Hw as [self msg_sender _usdcAddress t|ev w _ IH].
  - intros d. left. unfold amountFunded; simpl. by rewrite lookup_empty.
  - by apply step_entries_bounded.
Qed.

Lemma roster_prefix_by_step ev w :
  is_sweep ev w = false →
  s_funders (fundMe w) `prefix_of` s_funders (fundMe (step ev w)).
Proof.
  intros Hns. destruct ev as [[msg_sender _amount|msg_sender]|t]; simpl in *; [| |done].
  - destruct (succeeded (transact (fund msg_sender _amount) w)) eqn:Hs;
      [|by rewrite transact_failed].
    apply fund_succeeded in Hs as (_ & _ & t & _ & ->). simpl.
    case_decide; simpl; [|done]. by apply prefix_app_r.
  - by rewrite transact_failed.
Qed.

(** X12. As long as no withdrawal goes through, the roster only grows at
    its end: the roster at the start of a run is a prefix of the roster at
    its end, so entries keep their positions and their order. *)
Theorem roster_grows_at_the_end evs w :
  never is_sweep evs w = true →
  s_funders (fundMe w) `prefix_of` s_funders (fundMe (run evs w)).
Proof.
  revert w. induction evs as [|ev evs IH]; intros w Hnever; [done|].
  simpl in *. apply andb_true_iff in Hnever as [Hev Hrest].
  apply negb_true_iff in Hev.
  destruct (roster_prefix_by_step ev w Hev) as [k1 Hk1].
  destruct (IH _ Hrest) as [k2 Hk2].
  exists (k1 ++ k2). by rewrite Hk2, Hk1, (assoc_L (++)).
Qed.

Lemma zero_kept_by_step ev w d :
  is_deposit_of d ev w = false →
  amountFunded (fundMe w) d = 0 → amountFunded (fundMe (step ev w)) d = 0.
Proof.
  intros Hnd Hz. destruct ev as [[msg_sender _amount|msg_sender]|t]; simpl in *; [| |done].
  - destruct (succeeded (transact (fund msg_sender _amount) w)) eqn:Hs;
      [|by rewrite transact_failed].
    rewrite andb_true_r in Hnd. apply bool_decide_eq_false in Hnd.
    apply fund_succeeded in Hs as (_ & _ & t & _ & ->). simpl.
    rewrite amountFunded_set_ne by done. by case_decide.
  - destruct (succeeded (transact (withdraw msg_sender) w)) eqn:Hs;
      [|by rewrite transact_failed].
    apply withdraw_succeeded in Hs as (_ & t & _ & ->).
    change (amountFunded (sweep (s_funders (fundMe w)) (fundMe w)) d = 0).
    destruct (decide (d ∈ s_funders (fundMe w))).
    + by apply amountFunded_sweep_in.
    + by rewrite amountFunded_sweep_notin.
Qed.

(** X13. An identity that has made no successful deposit since the ledger
    was deployed reads as a zero contribution and is not in the roster,
    whatever everyone else has done. *)
Theorem never_deposited_reads_zero self msg_sender _usdcAddress t evs d :
  let w0 := deploy self msg_sender _usdcAddress t in
  never (is_deposit_of d) evs w0 = true →
  amountFunded (fundMe (run evs w0)) d = 0 ∧ d ∉ s_funders (fundMe (run evs w0)).
Proof.
  intros w0 Hnever.
  assert (Hr : reachable (run evs w0)) by apply reachable_run, reach_deploy.
  assert (Hz : amountFunded (fundMe (run evs w0)) d = 0).
  { assert (H0 : amountFunded (fundMe w0) d = 0)
      by (unfold amountFunded; simpl; by rewrite lookup_empty).
    clearbody w0. clear Hr. revert w0 Hnever H0.
    induction evs as [|ev evs IH]; intros w Hnever H0; [done|].
    simpl in *. apply andb_true_iff in Hnever as [Hev Hrest].
    apply negb_true_iff in Hev. apply IH; [done|]. by apply zero_kept_by_step. }
  split; [done|]. apply reachable_consistent in Hr as [_ Hiff].
  intros Hin%Hiff. done.
Qed.

(** X14. After a successful withdrawal in a reachable state, the next
    successful deposit starts the books afresh: the roster is exactly the
    depositor, its contribution is exactly the deposited amount, and
    everyone else reads zero. *)
Theorem fund_after_sweep msg_sender d _amount w :
  reachable w →
  succeeded (transact (withdraw msg_sender) w) = true →
  let w1 := post (transact (withdraw msg_sender) w) in
  succeeded (transact (fund d _amount) w1) = true →
  let c2 := fundMe (post (transact (fund d _amount) w1)) in
  s_funders c2 = [d] ∧
  amountFunded c2 d = _amount ∧
  ∀ d', d' ≠ d → amountFunded c2 d' = 0.
Proof.
  intros Hw Hs1 w1 Hs2 c2.
  assert (Hr1 : reachable w1) by (by apply (reach_step (Tx (Withdraw msg_sender)))).
  assert (Hnil : s_funders (fundMe w1) = []).
  { pose proof Hs1 as (_ & t & _ & Hpost)%withdraw_succeeded. subst w1. by rewrite Hpost. }
  assert (Hzero : ∀ d', amountFunded (fundMe w1) d' = 0).
  { intros d'. apply reachable_consistent in Hr1 as [_ Hiff].
    destruct (decide (amountFunded (fundMe w1) d' = 0)) as [|Hnz]; [done|].
    apply Hiff in Hnz. rewrite Hnil in Hnz. by apply not_elem_of_nil in Hnz. }
  apply fund_succeeded in Hs2 as (_ & _ & t & _ & Hpost). subst c2. rewrite Hpost. simpl.
  rewrite Hzero, decide_True by done. simpl. rewrite Hnil.
  split; [done|]. split; [by rewrite amountFunded_set_eq, N.add_0_l|].
  intros d' Hne. rewrite amountFunded_set_ne by done. apply Hzero.
Qed.

(** ** Custody *)

Lemma total_set_notin c a v (l : list address) :
  a ∉ l →
  foldr (λ funder acc, amountFunded (set_amountFunded a v c) funder + acc) 0 l
  = foldr (λ funder acc, amountFunded c funder + acc) 0 l.
Proof.
  induction l as [|x l IH]; intros Hout; [done|].
  apply not_elem_of_cons in Hout as [Hne Hout]. simpl.
  rewrite amountFunded_set_ne by done. by rewrite IH.
Qed.

Lemma total_set_in c a v (l : list address) :
  NoDup l → a ∈ l →
  foldr (λ funder acc, amountFunded (set_amountFunded a v c) funder + acc) 0 l
    + amountFunded c a
  = foldr (λ funder acc, amountFunded c funder + acc) 0 l + v.
Proof.
  induction 1 as [|x l Hx Hnd IH]; intros Hin.
  - by apply not_elem_of_nil in Hin.
  - simpl. destruct (decide (x = a)) as [->|Hne].
    + rewrite amountFunded_set_eq, total_set_notin by done. lia.
    + rewrite amountFunded_set_ne by done.
      apply elem_of_cons in Hin as [?|Hin]; [congruence|].
      specialize (IH Hin). lia.
Qed.

Lemma fund_total msg_sender _amount w :
  consistent (fundMe w) →
  succeeded (transact (fund msg_sender _amount) w) = true →
  total_funded (fundMe (post (transact (fund msg_sender _amount) w)))
  = total_funded (fundMe w) + _amount.
Proof.
  intros [Hnd Hiff] (_ & _ & t & _ & Hpost)%fund_succeeded. rewrite Hpost.
  unfold total_funded. simpl. set (c := fundMe w) in *.
  set (v := amountFunded c msg_sender + _amount).
  case_decide as Hz; simpl.
  - assert (Hout : msg_sender ∉ s_funders c) by (intros Hin%Hiff; done).
    change (foldr (λ funder acc, amountFunded (set_amountFunded msg_sender v c) funder + acc)
              0 (s_funders c ++ [msg_sender])
            = foldr (λ funder acc, amountFunded c funder + acc) 0 (s_funders c) + _amount).
    rewrite foldr_app. simpl. rewrite amountFunded_set_eq.
    assert (Hshift : ∀ (l : list address) k,
               foldr (λ funder acc, amountFunded (set_amountFunded msg_sender v c) funder + acc)
                 k l
               = foldr (λ funder acc, amountFunded (set_amountFunded msg_sender v c) funder
                                      + acc) 0 l + k).
    { intros l k. induction l as [|x l IH]; simpl; [done|]. rewrite IH. lia. }
    rewrite Hshift, total_set_notin by done. subst v. lia.
  - assert (Hin : msg_sender ∈ s_funders c) by (by apply Hiff).
    pose proof (total_set_in c msg_sender v (s_funders c) Hnd Hin) as Hsum.
    subst v. lia.
Qed.

Lemma step_solvent ev w :
  transferFrom_moves_funds →
  consistent (fundMe w) →
  match ev with
  | Tx (Fund msg_sender _) => msg_sender ≠ this (fundMe w)
  | Tx (Withdraw _) => True
  | TokenActivity t => balanceOf (usdc w) (this (fundMe w)) ≤ balanceOf t (this (fundMe w))
  end →
  total_funded (fundMe w) ≤ balanceOf (usdc w) (this (fundMe w)) →
  total_funded (fundMe (step ev w))
    ≤ balanceOf (usdc (step ev w)) (this (fundMe (step ev w))).
Proof.
  intros Hlaw Hcons Hev Hsolvent.
  destruct ev as [[msg_sender _amount|msg_sender]|t]; simpl in *; [| |lia].
  - destruct (succeeded (transact (fund msg_sender _amount) w)) eqn:Hs;
      [|by rewrite transact_failed].
    rewrite fund_total by done.
    apply fund_succeeded in Hs as (_ & _ & t & Hpull & ->). simpl.
    destruct (Hlaw _ _ _ _ _ _ Hpull Hev) as (_ & _ & Hto).
    replace (this (if decide (amountFunded (fundMe w) msg_sender = 0)
                   then set_funders (s_funders (fundMe w) ++ [msg_sender]) (fundMe w)
                   else fundMe w)) with (this (fundMe w)) by (by case_decide).
    rewrite Hto. lia.
  - destruct (succeeded (transact (withdraw msg_sender) w)) eqn:Hs;
      [|by rewrite transact_failed].
    apply withdraw_succeeded in Hs as (_ & t & _ & ->). unfold total_funded. simpl. lia.
Qed.

(** X15. With a token that honours the ERC20 contract of [transferFrom],
    and as long as the ledger does not fund itself and nothing outside its
    own calls lowers the balance held for it, the accounting total never
    exceeds the token balance the ledger holds: from a reachable state
    where this is so, it stays so along every run. *)
Theorem ledger_stays_solvent evs w :
  transferFrom_moves_funds →
  reachable w →
  custody_respected evs w →
  total_funded (fundMe w) ≤ balanceOf (usdc w) (this (fundMe w)) →
  total_funded (fundMe (run evs w))
    ≤ balanceOf (usdc (run evs w)) (this (fundMe (run evs w))).
Proof.
  intros Hlaw. revert w. induction evs as [|ev evs IH]; intros w Hw Hcust Hsolvent; [done|].
  simpl in *. destruct Hcust as [Hev Hrest].
  apply IH; [by constructor|done|].
  apply step_solvent; [done|by apply reachable_consistent|done..].
Qed.

(** X16. A deposit followed by a successful withdrawal hands the owner
    everything the ledger held: with a token that honours the ERC20
    contract of both transfers, a depositor and an owner distinct from the
    ledger, and a reachable starting state, the ledger's balance ends at
    zero, the owner's balance grows by the ledger's earlier balance plus
    the deposit, and the depositor's contribution and the roster are
    reset. *)
Theorem deposit_then_sweep d _amount w :
  transferFrom_moves_funds →
  transfer_moves_funds →
  reachable w →
  d ≠ this (fundMe w) →
  i_owner (fundMe w) ≠ this (fundMe w) →
  succeeded (transact (fund d _amount) w) = true →
  let w1 := post (transact (fund d _amount) w) in
  succeeded (transact (withdraw (i_owner (fundMe w))) w1) = true →
  let w2 := post (transact (withdraw (i_owner (fundMe w))) w1) in
  balanceOf (usdc w2) (this (fundMe w)) = 0 ∧
  balanceOf (usdc w2) (i_owner (fundMe w))
    = balanceOf (usdc w1) (i_owner (fundMe w)) + (balanceOf (usdc w) (this (fundMe w)) + _amount) ∧
  amountFunded (fundMe w2) d = 0 ∧
  s_funders (fundMe w2) = [].
Proof.
  intros Hpull_law Hpush_law Hw Hd Hself Hs1 w1 Hs2 w2.
  assert (Hr2 : reachable w2).
  { apply (reach_step (Tx (Withdraw _))). by apply (reach_step (Tx (Fund _ _))). }
  destruct (step_immutables (Tx (Fund d _amount)) w) as (Hthis1 & Howner1 & _).
  simpl in Hthis1, Howner1. fold w1 in Hthis1, Howner1.
  assert (Hbal1 : balanceOf (usdc w1) (this (fundMe w))
                  = balanceOf (usdc w) (this (fundMe w)) + _amount).
  { pose proof Hs1 as (_ & _ & t & Hpull & Hpost)%fund_succeeded.
    destruct (Hpull_law _ _ _ _ _ _ Hpull Hd) as (_ & _ & Hto).
    subst w1. by rewrite Hpost. }
  pose proof Hs2 as (_ & t & Hpush & Hpost)%withdraw_succeeded.
  rewrite Hthis1, Howner1 in Hpush.
  destruct (Hpush_law _ _ _ _ _ Hpush) as (_ & Hfrom & Hto); [done|].
  assert (Ht : usdc w2 = t) by (subst w2; by rewrite Hpost).
  assert (Hnil : s_funders (fundMe w2) = []) by (subst w2; by rewrite Hpost).
  rewrite Ht, Hfrom, Hto, Hbal1.
  split; [lia|]. split; [done|]. split; [|done].
  apply reachable_consistent in Hr2 as [_ Hiff].
  destruct (decide (amountFunded (fundMe w2) d = 0)) as [|Hnz]; [done|].
  apply Hiff in Hnz. rewrite Hnil in Hnz. by apply not_elem_of_nil in Hnz.
Qed.

(** ** The deployment script *)

(** X17. A ledger deployed by the script is owned by the broadcaster and
    bound to the mock on the local chain and to the mainnet USDC address on
    every other chain; this holds in every later state, in which a
    withdrawal by anyone but the broadcaster is refused with
    [FundMe__NotOwner]. *)
Theorem deployed_by_script chainid broadcaster mockUsdc self t evs :
  let w := run evs (mkWorld (DeployFundMe_run chainid broadcaster mockUsdc self) t) in
  i_owner (fundMe w) = broadcaster ∧
  usdcToken (fundMe w) = (if decide (chainid = LOCAL_CHAINID) then mockUsdc else MAINNET_USDC) ∧
  ∀ msg_sender, msg_sender ≠ broadcaster →
    status (transact (withdraw msg_sender) w) = Failure FundMe__NotOwner.
Proof.
  intros w.
  destruct (run_immutables evs
              (mkWorld (DeployFundMe_run chainid broadcaster mockUsdc self) t))
    as (_ & Howner & Htoken).
  fold w in Howner, Htoken. simpl in Howner, Htoken.
  split; [done|]. split; [done|].
  intros msg_sender Hne. unfold transact. rewrite withdraw_eq. simpl.
  rewrite Howner. by rewrite decide_True by done.
Qed.

End Ledger_more.

(** * The tip selector *)

(** ** The matcher against the denotation *)

Lemma denotes_nil_nullable r s : denotes r s → s = [] → nullable r = true.
Proof.
  induction 1 as [| | |r1 r2 s1 s2 _ IH1 _ IH2|r1 r2 s _ IH|r1 r2 s _ IH| | | | | |];
    intros Hnil; simpl; try done.
  - apply app_eq_nil in Hnil as [-> ->]. by rewrite IH1, IH2.
  - by rewrite IH.
  - rewrite IH by done. apply orb_true_r.
Qed.

Lemma nullable_denotes r : nullable r = true → denotes r [].
Proof.
  induction r as [| | | |r1 IH1 r2 IH2|r1 IH1 r2 IH2|r IH|r IH|n r IH]; simpl; intros Hn.
  - done.
  - constructor.
  - done.
  - done.
  - apply andb_true_iff in Hn as [H1 H2].
    change (denotes (RSeq r1 r2) ([] ++ [])). constructor; auto.
  - apply orb_true_iff in Hn as [H1|H2].
    + apply denotes_alt_l. auto.
    + apply denotes_alt_r. auto.
  - apply denotes_star_nil.
  - apply denotes_opt_nil.
  - apply denotes_upto_nil.
Qed.

Lemma denotes_upto_mono n r s : denotes (RUpto n r) s → denotes (RUpto (S n) r) s.
Proof.
  revert s. induction n as [|n IH]; intros s Hs; inversion Hs; subst; try constructor.
  - done.
  - by apply IH.
Qed.

Lemma deriv_sound a r s : denotes (deriv a r) s → denotes r (a :: s).
Proof.
  revert s. induction r as [| | | |r1 IH1 r2 IH2|r1 IH1 r2 IH2|r IH|r IH|n r IH];
    simpl; intros s Hs.
  - inversion Hs.
  - inversion Hs.
  - case_decide as Hac; inversion Hs; subst. constructor.
  - destruct (is_digit a) eqn:Hd; inversion Hs; subst. by constructor.
  - destruct (nullable r1) eqn:Hn.
    + inversion Hs as [| | | | ? ? ? Hl | ? ? ? Hr | | | | | |]; subst.
      * inversion Hl; subst.
        change (denotes (RSeq r1 r2) ((a :: s1) ++ s2)). constructor; auto.
      * change (denotes (RSeq r1 r2) ([] ++ a :: s)).
        constructor; [by apply nullable_denotes|auto].
    + inversion Hs; subst.
      change (denotes (RSeq r1 r2) ((a :: s1) ++ s2)). constructor; auto.
  - inversion Hs; subst; [apply denotes_alt_l|apply denotes_alt_r]; auto.
  - inversion Hs; subst.
    change (denotes (RStar r) ((a :: s1) ++ s2)). constructor; auto.
  - apply denotes_opt_one. auto.
  - destruct n as [|n]; inversion Hs; subst.
    change (denotes (RUpto (S n) r) ((a :: s1) ++ s2)). constructor; auto.
Qed.

Lemma deriv_complete a r cs s : denotes r cs → cs = a :: s → denotes (deriv a r) s.
Proof.
  intros Hd. revert s.
  induction Hd as [|c|b Hb|r1 r2 s1 s2 H1 IH1 H2 IH2|r1 r2 s' _ IH|r1 r2 s' _ IH
                  |r|r s1 s2 H1 IH1 H2 IH2|r|r s' _ IH|n r|n r s1 s2 H1 IH1 H2 IH2];
    intros s Hcs; simpl; try done.
  - injection Hcs as -> <-. rewrite decide_True by done. constructor.
  - injection Hcs as -> <-. rewrite Hb. constructor.
  - destruct s1 as [|b s1]; simpl in Hcs.
    + rewrite (denotes_nil_nullable _ _ H1 eq_refl). apply denotes_alt_r. by apply IH2.
    + injection Hcs as -> <-.
      destruct (nullable r1); [apply denotes_alt_l|]; constructor; auto.
  - apply denotes_alt_l. auto.
  - apply denotes_alt_r. auto.
  - destruct s1 as [|b s1]; simpl in Hcs.
    + by apply IH2.
    + injection Hcs as -> <-. constructor; auto.
  - auto.
  - destruct s1 as [|b s1]; simpl in Hcs.
    + specialize (IH2 _ Hcs). destruct n as [|n]; simpl in IH2; [inversion IH2|].
      inversion IH2; subst. constructor; [done|]. by apply denotes_upto_mono.
    + injection Hcs as -> <-. constructor; auto.
Qed.

Lemma matches_denotes r cs : matches r cs = true ↔ denotes r cs.
Proof.
  revert r. induction cs as [|a cs IH]; intros r; simpl.
  - split; [apply nullable_denotes|]. intros Hd. by apply (denotes_nil_nullable r []).
  - rewrite IH. split; [apply deriv_sound|]. intros Hd. by apply (deriv_complete a r (a :: cs)).
Qed.

(** ** The pattern *)

Lemma star_digits cs : denotes (RStar RDigit) cs ↔ forallb is_digit cs = true.
Proof.
  split.
  - intros Hd. remember (RStar RDigit) as r eqn:Hr.
    induction Hd as [| | | | | | |r' s1 s2 H1 _ _ IH2| | | |]; try done.
    injection Hr as ->. inversion H1; subst. simpl.
    apply andb_true_iff. split; [done|]. by apply IH2.
  - induction cs as [|a cs IH]; simpl; intros Hall; [constructor|].
    apply andb_true_iff in Hall as [Ha Hcs].
    change (denotes (RStar RDigit) ([a] ++ cs)). constructor; [by constructor|auto].
Qed.

Lemma upto_digits n cs :
  denotes (RUpto n RDigit) cs ↔ forallb is_digit cs = true ∧ (length cs ≤ n)%nat.
Proof.
  split.
  - revert cs. induction n as [|n IH]; intros cs Hd; inversion Hd; subst; simpl.
    + split; [done|lia].
    + split; [done|lia].
    + match goal with H : denotes RDigit _ |- _ => inversion H; subst end.
      match goal with H : denotes (RUpto n RDigit) _ |- _ => apply IH in H as [Hall Hlen] end.
      simpl. split; [by apply andb_true_iff|lia].
  - revert cs. induction n as [|n IH]; intros cs [Hall Hlen].
    + destruct cs; [constructor|simpl in Hlen; lia].
    + destruct cs as [|a cs]; [constructor|]. simpl in *.
      apply andb_true_iff in Hall as [Ha Hcs].
      change (denotes (RUpto (S n) RDigit) ([a] ++ cs)).
      constructor; [by constructor|]. apply IH. split; [done|lia].
Qed.

Lemma pattern_denotes cs : denotes pattern cs ↔ decimal_shaped cs.
Proof.
  unfold pattern, decimal_shaped. split.
  - intros Hd. inversion Hd as [| | |? ? whole rest Hwhole Hrest| | | | | | | |]; subst.
    inversion Hrest as [| | |? ? point frac Hpoint Hfrac| | | | | | | |]; subst.
    exists whole, point, frac. split; [done|].
    split; [by apply star_digits|].
    apply upto_digits in Hfrac as [Hall Hlen].
    split; [|done]. inversion Hpoint as [| | | | | | | |?|? ? Hc| |]; subst; [by left|].
    inversion Hc; subst. by right.
  - intros (whole & point & frac & -> & Hwhole & Hpoint & Hfrac & Hlen).
    constructor; [by apply star_digits|].
    constructor; [|by apply upto_digits].
    destruct Hpoint as [->| ->]; [constructor|]. apply denotes_opt_one. constructor.
Qed.

(** X18. The input filter [/^\d*\.?\d{0,2}$/] accepts exactly the strings
    made of digits, then possibly one decimal point followed by at most two
    digits. The whole part may be empty or arbitrarily long, and a lone
    point passes; a sign, a space, a letter, a second point or a third
    decimal place does not. *)
Theorem pattern_accepts_decimals val :
  test pattern val = true ↔ decimal_shaped (String.list_ascii_of_string val).
Proof. unfold test. by rewrite matches_denotes, pattern_denotes. Qed.

(** ** The component *)

Lemma custom_not_decimal_shaped :
  ¬ decimal_shaped (String.list_ascii_of_string "custom").
Proof.
  intros (whole & point & frac & Heq & Hwhole & Hpoint & Hfrac & _).
  destruct whole as [|a whole]; simpl in *.
  - destruct Hpoint as [->| ->]; simpl in Heq; [|discriminate].
    subst frac. simpl in Hfrac. discriminate.
  - injection Heq as <- _. simpl in Hwhole. discriminate.
Qed.

Section TipSelector_properties.
Variable parseFloat_le_1000 : string → bool.

Lemma ui_step_invariant ev s :
  selected s ∈ options ∧ filtered parseFloat_le_1000 (customAmount s) →
  selected (ui_step parseFloat_le_1000 ev s) ∈ options ∧
  filtered parseFloat_le_1000 (customAmount (ui_step parseFloat_le_1000 ev s)).
Proof.
  intros [Hsel Hcust]. destruct ev as [disabled i|disabled val]; simpl.
  - destruct (options !! i) as [opt|] eqn:Hopt; [|done].
    unfold handleSelect. destruct disabled; [done|]. simpl.
    split; [|done]. by apply list_elem_of_lookup_2 in Hopt.
  - case_decide; [|done]. destruct disabled; [done|].
    unfold handleCustomChange. case_decide; simpl; [split; [done|by left]|].
    destruct (test pattern val) eqn:Htest; [|done].
    destruct (parseFloat_le_1000 val) eqn:Hle; [|done]. simpl.
    split; [done|]. right. split; [|done].
    unfold test in Htest. by apply pattern_denotes, matches_denotes.
Qed.

Lemma ui_run_invariant evs s :
  selected s ∈ options ∧ filtered parseFloat_le_1000 (customAmount s) →
  selected (ui_run parseFloat_le_1000 evs s) ∈ options ∧
  filtered parseFloat_le_1000 (customAmount (ui_run parseFloat_le_1000 evs s)).
Proof.
  revert s. induction evs as [|ev evs IH]; intros s Hs; [done|].
  simpl. by apply IH, ui_step_invariant.
Qed.

(** X19. Whatever is clicked and typed, starting from the initial state:
    the selection is one of the four options; the custom amount is empty or
    a string that passed the filter (digits, at most one point, at most two
    decimals, within the bound); and the amount handed to [onAmountChange]
    is a preset, or empty, or such a filtered string, never the word
    [custom] itself. *)
Theorem selector_reports_clean_amounts evs :
  let s := ui_run parseFloat_le_1000 evs TipSelector_initial in
  selected s ∈ options ∧
  filtered parseFloat_le_1000 (customAmount s) ∧
  (reported_amount s ∈ ["5"; "10"; "15"]%string ∨
   filtered parseFloat_le_1000 (reported_amount s)) ∧
  reported_amount s ≠ "custom"%string.
Proof.
  intros s.
  assert (Hinv : selected s ∈ options ∧ filtered parseFloat_le_1000 (customAmount s)).
  { apply ui_run_invariant. split; [apply list_elem_of_here|by left]. }
  destruct Hinv as [Hsel Hcust]. split; [done|]. split; [done|].
  unfold reported_amount. case_decide as Hc.
  - split; [by right|]. intros Heq. destruct Hcust as [Hnil|[Hshape _]].
    + rewrite Hnil in Heq. discriminate.
    + rewrite Heq in Hshape. by apply custom_not_decimal_shaped.
  - split; [|done]. left. unfold options in Hsel.
    rewrite !elem_of_cons in Hsel. rewrite !elem_of_cons.
    destruct Hsel as [?|[?|[?|[?|Hn]]]]; [auto..|done|].
    by apply not_elem_of_nil in Hn.
Qed.


End TipSelector_properties.

(** * Instances of the further properties *)

(** The mock honours the ERC20 contract of [transferFrom]. *)
Lemma mock_transferFrom_moves_funds : transferFrom_moves_funds (T := MockUSDC).
Proof.
  intros t spender from to amount t' Hpull Hne. simpl in *.
  unfold mock_transferFrom in Hpull.
  destruct (paused t); [done|]. case_decide as Hallow; [done|].
  case_decide as Hbal; [done|].
  injection Hpull as <-. split; [lia|].
  unfold mock_balanceOf, mock_move; simpl. split.
  - rewrite lookup_insert_ne by done. by rewrite lookup_insert_eq.
  - rewrite lookup_insert_eq. by rewrite lookup_insert_ne by done.
Qed.

Lemma reachable_second_round : reachable (run interlude funded).
Proof. apply reachable_run, reachable_funded. Qed.

Lemma fund_overflow_panics_witness :
  MINIMUM_USDC ≤ SEND_VALUE ∧
  MAX_UINT256 < amountFunded (fundMe saturated) USER + SEND_VALUE ∧
  status (transact (fund USER SEND_VALUE) saturated) = Failure (Panic 0x11) ∧
  post (transact (fund USER SEND_VALUE) saturated) = saturated.
Proof.
  assert (Hmin : MINIMUM_USDC ≤ SEND_VALUE) by by_computation.
  assert (Hpull : ∃ t, transferFrom (usdc saturated) (this (fundMe saturated)) USER
                         (this (fundMe saturated)) SEND_VALUE = CallReturn true t)
    by (eexists; by_computation).
  destruct Hpull as [t Hpull].
  assert (Hover : MAX_UINT256 < amountFunded (fundMe saturated) USER + SEND_VALUE)
    by by_computation.
  destruct (fund_overflow_panics USER SEND_VALUE saturated t Hmin Hpull Hover)
    as (Hst & Hpost & _).
  exact (conj Hmin (conj Hover (conj Hst Hpost))).
Defined.

Lemma fund_repeat_deposit_witness :
  amountFunded (fundMe (run interlude funded)) USER ≠ 0 ∧
  succeeded (transact (fund USER (250 * 10 ^ 6)) (run interlude funded)) = true ∧
  s_funders (fundMe (post (transact (fund USER (250 * 10 ^ 6)) (run interlude funded))))
    = [USER] ∧
  amountFunded (fundMe (post (transact (fund USER (250 * 10 ^ 6)) (run interlude funded)))) USER
    = 350 * 10 ^ 6.
Proof.
  assert (Hnz : amountFunded (fundMe (run interlude funded)) USER ≠ 0) by by_computation.
  assert (Hs : succeeded (transact (fund USER (250 * 10 ^ 6)) (run interlude funded)) = true)
    by by_computation.
  destruct (fund_repeat_deposit USER (250 * 10 ^ 6) (run interlude funded) Hnz Hs)
    as [Hroster Hamt].
  refine (conj Hnz (conj Hs (conj _ _))).
  - exact (eq_trans Hroster (eq_refl [USER])).
  - exact (eq_trans Hamt (eq_refl (350 * 10 ^ 6))).
Defined.

Lemma fund_leaves_others_witness :
  succeeded (transact (fund USER SEND_VALUE) approved) = true ∧
  OWNER ≠ USER ∧
  amountFunded (fundMe funded) OWNER = amountFunded (fundMe approved) OWNER ∧
  (OWNER ∈ s_funders (fundMe funded) ↔ OWNER ∈ s_funders (fundMe approved)) ∧
  s_funders (fundMe approved) `prefix_of` s_funders (fundMe funded).
Proof.
  assert (Hs : succeeded (transact (fund USER SEND_VALUE) approved) = true) by by_computation.
  assert (Hne : OWNER ≠ USER) by by_computation.
  exact (conj Hs (conj Hne (fund_leaves_others USER SEND_VALUE approved OWNER Hs Hne))).
Defined.

Lemma withdraw_resets_roster_only_witness :
  succeeded (transact (withdraw OWNER) funded) = true ∧
  amountFunded (fundMe swept) USER = 0.
Proof.
  assert (Hs : succeeded (transact (withdraw OWNER) funded) = true) by by_computation.
  exact (conj Hs (eq_trans (withdraw_resets_roster_only OWNER funded USER Hs) (eq_refl 0))).
Defined.

Lemma withdraw_clears_everything_witness :
  reachable funded ∧
  succeeded (transact (withdraw OWNER) funded) = true ∧
  (∀ d, amountFunded (fundMe swept) d = 0) ∧
  total_funded (fundMe swept) = 0.
Proof.
  assert (Hs : succeeded (transact (withdraw OWNER) funded) = true) by by_computation.
  exact (conj reachable_funded
          (conj Hs (withdraw_clears_everything OWNER funded reachable_funded Hs))).
Defined.

Lemma withdraw_empty_roster_witness :
  s_funders (fundMe setUp) = [] ∧
  fundMe (post (transact (withdraw OWNER) setUp)) = fundMe setUp ∧
  calls (transact (withdraw OWNER) setUp) = [Call_balanceOf FUNDME; Call_transfer OWNER 0].
Proof.
  assert (Hnil : s_funders (fundMe setUp) = []) by reflexivity.
  assert (Hbal : balanceOf (usdc setUp) (this (fundMe setUp)) = 0) by by_computation.
  destruct (withdraw_empty_roster setUp Hnil) as [Hsame Hcalls].
  exact (conj Hnil (conj Hsame (Hcalls Hbal))).
Defined.

Lemma entries_bounded_witness :
  reachable funded ∧
  (amountFunded (fundMe funded) USER = 0 ∨
   MINIMUM_USDC ≤ amountFunded (fundMe funded) USER ≤ MAX_UINT256).
Proof. exact (conj reachable_funded (entries_bounded funded USER reachable_funded)). Defined.

Lemma roster_grows_at_the_end_witness :
  never is_sweep busy_day funded = true ∧
  s_funders (fundMe funded) `prefix_of` s_funders (fundMe (run busy_day funded)).
Proof.
  assert (Hnever : never is_sweep busy_day funded = true) by by_computation.
  exact (conj Hnever (roster_grows_at_the_end busy_day funded Hnever)).
Defined.

Lemma never_deposited_reads_zero_witness :
  never (is_deposit_of USER2)
    [TokenActivity (usdc approved); Tx (Fund USER SEND_VALUE); Tx (Withdraw USER2)]
    (deploy FUNDME OWNER USDC (usdc setUp)) = true ∧
  amountFunded (fundMe (run
    [TokenActivity (usdc approved); Tx (Fund USER SEND_VALUE); Tx (Withdraw USER2)]
    (deploy FUNDME OWNER USDC (usdc setUp)))) USER2 = 0 ∧
  USER2 ∉ s_funders (fundMe (run
    [TokenActivity (usdc approved); Tx (Fund USER SEND_VALUE); Tx (Withdraw USER2)]
    (deploy FUNDME OWNER USDC (usdc setUp)))).
Proof.
  assert (Hnever : never (is_deposit_of USER2)
            [TokenActivity (usdc approved); Tx (Fund USER SEND_VALUE); Tx (Withdraw USER2)]
            (deploy FUNDME OWNER USDC (usdc setUp)) = true) by by_computation.
  exact (conj Hnever (never_deposited_reads_zero FUNDME OWNER USDC (usdc setUp) _ USER2 Hnever)).
Defined.

Lemma fund_after_sweep_witness :
  reachable (run interlude funded) ∧
  succeeded (transact (withdraw OWNER) (run interlude funded)) = true ∧
  succeeded (transact (fund USER (250 * 10 ^ 6))
               (post (transact (withdraw OWNER) (run interlude funded)))) = true ∧
  s_funders (fundMe (post (transact (fund USER (250 * 10 ^ 6))
               (post (transact (withdraw OWNER) (run interlude funded)))))) = [USER] ∧
  amountFunded (fundMe (post (transact (fund USER (250 * 10 ^ 6))
               (post (transact (withdraw OWNER) (run interlude funded)))))) USER
    = 250 * 10 ^ 6.
Proof.
  assert (Hs1 : succeeded (transact (withdraw OWNER) (run interlude funded)) = true)
    by by_computation.
  assert (Hs2 : succeeded (transact (fund USER (250 * 10 ^ 6))
                  (post (transact (withdraw OWNER) (run interlude funded)))) = true)
    by by_computation.
  destruct (fund_after_sweep OWNER USER (250 * 10 ^ 6) (run interlude funded)
              reachable_second_round Hs1 Hs2) as (Hroster & Hamt & _).
  exact (conj reachable_second_round (conj Hs1 (conj Hs2 (conj Hroster Hamt)))).
Defined.

Lemma ledger_stays_solvent_witness :
  transferFrom_moves_funds (T := MockUSDC) ∧
  reachable funded ∧
  custody_respected busy_day funded ∧
  total_funded (fundMe funded) ≤ balanceOf (usdc funded) (this (fundMe funded)) ∧
  total_funded (fundMe (run busy_day funded))
    ≤ balanceOf (usdc (run busy_day funded)) (this (fundMe (run busy_day funded))).
Proof.
  assert (Hcust : custody_respected busy_day funded).
  { repeat split; by_computation. }
  assert (Hsolvent : total_funded (fundMe funded)
                     ≤ balanceOf (usdc funded) (this (fundMe funded))) by by_computation.
  exact (conj mock_transferFrom_moves_funds (conj reachable_funded (conj Hcust (conj Hsolvent
          (ledger_stays_solvent busy_day funded mock_transferFrom_moves_funds
             reachable_funded Hcust Hsolvent))))).
Defined.

Lemma deposit_then_sweep_witness :
  transferFrom_moves_funds (T := MockUSDC) ∧
  transfer_moves_funds (T := MockUSDC) ∧
  reachable approved ∧
  USER ≠ this (fundMe approved) ∧
  i_owner (fundMe approved) ≠ this (fundMe approved) ∧
  succeeded (transact (fund USER SEND_VALUE) approved) = true ∧
  succeeded (transact (withdraw OWNER) funded) = true ∧
  balanceOf (usdc swept) FUNDME = 0 ∧
  balanceOf (usdc swept) OWNER
    = balanceOf (usdc funded) OWNER + (balanceOf (usdc approved) FUNDME + SEND_VALUE) ∧
  amountFunded (fundMe swept) USER = 0 ∧
  s_funders (fundMe swept) = [].
Proof.
  assert (Hd : USER ≠ this (fundMe approved)) by by_computation.
  assert (Hself : i_owner (fundMe approved) ≠ this (fundMe approved)) by by_computation.
  assert (Hs1 : succeeded (transact (fund USER SEND_VALUE) approved) = true)
    by by_computation.
  assert (Hs2 : succeeded (transact (withdraw (i_owner (fundMe approved)))
                  (post (transact (fund USER SEND_VALUE) approved))) = true)
    by by_computation.
  exact (conj mock_transferFrom_moves_funds (conj mock_transfer_moves_funds
          (conj reachable_approved (conj Hd (conj Hself (conj Hs1 (conj Hs2
            (deposit_then_sweep USER SEND_VALUE approved mock_transferFrom_moves_funds
               mock_transfer_moves_funds reachable_approved Hd Hself Hs1 Hs2)))))))).
Defined.


Lemma only_owner_is_paid_witness :
  Call_transfer OWNER SEND_VALUE ∈ calls (transact (exec (Withdraw OWNER)) funded) ∧
  Withdraw OWNER = Withdraw (i_owner (fundMe funded)) ∧
  OWNER = i_owner (fundMe funded) ∧
  SEND_VALUE = balanceOf (usdc funded) (this (fundMe funded)).
Proof.
  assert (Hin : Call_transfer OWNER SEND_VALUE
                  ∈ calls (transact (exec (Withdraw OWNER)) funded)).
  { apply list_elem_of_further, list_elem_of_here. }
  exact (conj Hin (only_owner_is_paid (Withdraw OWNER) funded OWNER SEND_VALUE Hin)).
Defined.
